(** * SCF-analysis: the Survey of Consumer Finances pipeline

    A shallow embedding of [scf_collector.py] (the fetcher) and of
    [wealth_stats_overtime.py] (the loader and the aggregator), and the
    properties of the repository's specification proved about it.

    Conventions of the model.
    - A pandas DataFrame is a list of rows; a row maps column names to
      cells.  Reading a column that a row does not have is the KeyError
      of pandas.
    - The numbers of the float64 columns are exact rationals ([Q]); IEEE
      rounding is not modelled.  A run that would leave the finite
      numbers (a zero weight sum under a division, a missing value or a
      text in a numeric column) is reported as a failure ([None]), as is
      every run that raises.
    - A Python [dict] is a [gmap]; a function that raises returns [None].
    - The file system, the remote server and the calls made on them are
      an explicit [world] threaded through the effectful functions. *)

From Stdlib Require Import ZArith QArith Qround DecimalString Ascii String.
From stdpp Require Import base option list strings gmap.

Local Open Scope string_scope.

(** ** Cells, rows and frames *)

Inductive cell : Type :=
| CNum (q : Q)        (* a number *)
| CStr (s : string)   (* a text *)
| CNaN.               (* pandas' missing value *)

Abbreviation row := (gmap string cell).
Abbreviation frame := (list row).

(** [df[c]]: the column, or the KeyError. *)
Definition column (df : frame) (c : string) : option (list cell) :=
  mapM (λ r : row, r !! c) df.

(** [x == y] of pandas on two values: numbers by value, texts by
    content, a missing value equal to nothing. *)
Definition cell_eqb (x y : cell) : bool :=
  match x, y with
  | CNum a, CNum b => Qeq_bool a b
  | CStr s, CStr t => String.eqb s t
  | _, _ => false
  end.

(** A numeric cell, or the failure of the arithmetic on it. *)
Definition as_num (c : cell) : option Q :=
  match c with
  | CNum q => Some q
  | _ => None
  end.

(** The numbers of a column. *)
Definition column_num (df : frame) (c : string) : option (list Q) :=
  col ← column df c; mapM as_num col.

(** ** Python text helpers *)

(** [str(n)] of an integer. *)
Definition str_Z (n : Z) : string := NilZero.string_of_int (Z.to_int n).

Definition lower_ascii (a : ascii) : ascii :=
  let n := nat_of_ascii a in
  if (65 <=? n)%nat && (n <=? 90)%nat then ascii_of_nat (n + 32) else a.

(** [s.lower()] on ASCII text. *)
Fixpoint str_lower (s : string) : string :=
  match s with
  | EmptyString => EmptyString
  | String a s' => String (lower_ascii a) (str_lower s')
  end.

Definition startswith_sep (s : string) : bool :=
  match s with
  | String "/" _ => true
  | _ => false
  end.

Fixpoint endswith_sep (s : string) : bool :=
  match s with
  | EmptyString => false
  | String a EmptyString => Ascii.eqb a "/"
  | String _ s' => endswith_sep s'
  end.

(** One step of [os.path.join] (posixpath): an absolute component
    restarts the path, otherwise it is appended with one separator,
    unless the path so far is empty or already ends with one. *)
Definition join_step (path b : string) : string :=
  if startswith_sep b then b
  else if String.eqb path "" || endswith_sep path then path ++ b
  else path ++ "/" ++ b.

Definition os_path_join (a : string) (p : list string) : string :=
  fold_left join_step p a.

(** ** The loader: [load_df] *)

(** [df.rename(columns={old: new})] on one row: a column that is absent
    is left alone. *)
Definition rename_col (old new : string) (r : row) : row :=
  match r !! old with
  | Some c => <[new := c]> (delete old r)
  | None => r
  end.

(** [race_map], looked up with a cell as the key. *)
Definition race_map (c : cell) : cell :=
  match c with
  | CNum q =>
      if Qeq_bool q 1 then CStr "white non-Hispanic"
      else if Qeq_bool q 2 then CStr "black/African-American"
      else if Qeq_bool q 3 then CStr "Hispanic"
      else if Qeq_bool q 4 then CStr "Asian"
      else if Qeq_bool q 5 then CStr "other"
      else CNaN
  | _ => CNaN
  end.

(** Arithmetic of a list comprehension on two cells: a missing value
    propagates, a text raises. *)
Definition cell_op2 (f : Q → Q → Q) (x y : cell) : option cell :=
  match x, y with
  | CNum a, CNum b => Some (CNum (f a b))
  | CStr _, _ | _, CStr _ => None
  | _, _ => Some CNaN
  end.

Definition cell_op1 (f : Q → Q) (x : cell) : option cell :=
  match x with
  | CNum a => Some (CNum (f a))
  | CStr _ => None
  | CNaN => Some CNaN
  end.

(** The summary transformations of one row, in the order of the source:
    rename the two identifiers, decode the race, add the implicate
    number, add the household weight. *)
Definition summary_row (r : row) : option row :=
  let r1 := rename_col "y1" "imputed_hh_id" (rename_col "yy1" "household_id" r) in
  race ← r1 !! "race";
  let r2 := <["race" := race_map race]> r1 in
  x ← r2 !! "imputed_hh_id";
  y ← r2 !! "household_id";
  imp ← cell_op2 (λ x y, x - y * 10)%Q x y;
  let r3 := <["implicate" := imp]> r2 in
  w ← r3 !! "wgt";
  hw ← cell_op1 (λ x, x * 5)%Q w;
  Some (<["hh_wgt" := hw]> r3).

(** What a file holds.  A table is written as its row labels, its
    column labels and its values, row by row. *)
Inductive label : Type :=
| LInt (n : Z)
| LStr (s : string).

Record table : Type := Table {
  t_index : list label;
  t_columns : list label;
  t_values : list (list (option Q)) }.

Inductive content : Type :=
| Dta (t : frame)                    (* a Stata data file, parsed *)
| ZipArchive (members : list (string * frame))
                                     (* a zip archive of data files *)
| Csv (t : table)                    (* a delimited file *)
| Blob (s : string).                 (* anything else *)

(** [pd.read_stata(fpath)] *)
Definition read_stata (files : gmap string content) (fpath : string)
  : option frame :=
  match files !! fpath with
  | Some (Dta t) => Some t
  | _ => None
  end.

Definition load_df (files : gmap string content)
    (year : Z) (filetype : string) (datadir : string) : option frame :=
  let fname := "rscfp" ++ str_Z year ++ ".dta" in
  let fpath := os_path_join datadir [str_Z year; fname] in
  df ← read_stata files fpath;
  if String.eqb filetype "raw" then Some df
  else mapM summary_row df.

(** ** The aggregator: [display_group_avgs] *)

(** The builtin [sum] and the [.sum()] of a Series, on exact numbers. *)
Definition py_sum (l : list Q) : Q := fold_left Qplus l 0%Q.

(** A division whose result is a finite number. *)
Definition fdiv (a b : Q) : option Q :=
  if Qeq_bool b 0 then None else Some (a / b)%Q.

(** Rounding to the nearest integer, ties to the even one. *)
Definition rint (x : Q) : Z :=
  let f := Qfloor x in
  match (x - inject_Z f ?= 1 # 2)%Q with
  | Lt => f
  | Gt => (f + 1)%Z
  | Eq => if Z.even f then f else (f + 1)%Z
  end.

(** [round(x, 1)] *)
Definition round1 (x : Q) : Q := (inject_Z (rint (x * 10)) / 10)%Q.

(** [df[grouper].value_counts().index]: the distinct values of the
    column, the missing ones dropped.  pandas orders them by falling
    count; the order does not show in the mapping that is returned. *)
Definition is_nan (c : cell) : bool :=
  match c with
  | CNaN => true
  | _ => false
  end.

Fixpoint distinct_cells (seen col : list cell) : list cell :=
  match col with
  | [] => []
  | c :: rest =>
      if is_nan c || existsb (cell_eqb c) seen then distinct_cells seen rest
      else c :: distinct_cells (c :: seen) rest
  end.

Definition value_counts_index (col : list cell) : list cell :=
  distinct_cells [] col.

(** [str(gcat).lower() == 'nan'] *)
Definition str_is_nan (gcat : cell) : bool :=
  match gcat with
  | CStr s => String.eqb (str_lower s) "nan"
  | CNum _ => false
  | CNaN => true
  end.

(** [df[df[grouper] == gcat]] *)
Definition select (df : frame) (grouper : string) (gcat : cell) : frame :=
  List.filter
    (λ r : row, match r !! grouper with
                | Some c => cell_eqb c gcat
                | None => false
                end) df.

(** The statistics of one group: the weighted average of [var], the
    weight on zero or negative net worth, and its share in percent. *)
Definition group_stats (g_df : frame) (var : string) : option (Q * Q * Q) :=
  wgt ← column_num g_df "wgt";
  v ← column_num g_df var;
  let var_wgted := zip_with Qmult wgt v in
  var_avg ← fdiv (py_sum var_wgted) (py_sum wgt);
  networth ← column_num g_df "networth";
  let nonetworth :=
    py_sum (fst <$> List.filter (λ p : Q * Q, Qle_bool p.2 0) (zip wgt networth)) in
  share ← fdiv nonetworth (py_sum wgt);
  let pct_nonetworth := round1 (100 * share) in
  Some (var_avg, nonetworth, pct_nonetworth).

(** [gcat.upper()] in the printed header exists for a text only. *)
Definition text_of (gcat : cell) : option string :=
  match gcat with
  | CStr s => Some s
  | _ => None
  end.

Fixpoint group_loop (df : frame) (var grouper : string) (avg_worth : bool)
    (cats : list cell) (group_avgs : gmap string Q) : option (gmap string Q) :=
  match cats with
  | [] => Some group_avgs
  | gcat :: rest =>
      if str_is_nan gcat then group_loop df var grouper avg_worth rest group_avgs
      else
        st ← group_stats (select df grouper gcat) var;
        key ← text_of gcat;
        let '(var_avg, _, pct_nonetworth) := st in
        group_loop df var grouper avg_worth rest
          (<[key := if avg_worth then var_avg else pct_nonetworth]> group_avgs)
  end.

(** The average over all rows, which is printed and not returned. *)
Definition total_average (df : frame) (var : string) : option Q :=
  wgt ← column_num df "wgt";
  v ← column_num df var;
  fdiv (py_sum (zip_with Qmult wgt v)) (py_sum wgt).

Definition display_group_avgs (df : frame) (var grouper : string)
    (avg_worth : bool) : option (gmap string Q) :=
  col ← column df grouper;
  group_avgs ← group_loop df var grouper avg_worth (value_counts_index col) ∅;
  _ ← total_average df var;
  Some group_avgs.

(** * Properties *)

(** ** The loader *)

Lemma rename_col_other (old new k : string) (r : row) :
  k ≠ old → k ≠ new → rename_col old new r !! k = r !! k.
Proof.
  intros Ho Hn. unfold rename_col.
  destruct (r !! old) as [c|] eqn:E; [|done].
  rewrite lookup_insert_ne by done. by rewrite lookup_delete_ne.
Qed.

Lemma rename_col_new (old new : string) (r : row) (c : cell) :
  r !! old = Some c → rename_col old new r !! new = Some c.
Proof.
  intros E. unfold rename_col. rewrite E. apply lookup_insert_eq.
Qed.

(** The columns of a summary row, read off the row of the file. *)
Lemma summary_row_inv (r0 r : row) :
  summary_row r0 = Some r →
  let r1 := rename_col "y1" "imputed_hh_id"
              (rename_col "yy1" "household_id" r0) in
  ∃ race x y imp w hw,
    r0 !! "race" = Some race ∧
    r1 !! "imputed_hh_id" = Some x ∧
    r1 !! "household_id" = Some y ∧
    cell_op2 (λ x y, x - y * 10)%Q x y = Some imp ∧
    r0 !! "wgt" = Some w ∧
    cell_op1 (λ x, x * 5)%Q w = Some hw ∧
    r !! "race" = Some (race_map race) ∧
    r !! "imputed_hh_id" = Some x ∧
    r !! "household_id" = Some y ∧
    r !! "implicate" = Some imp ∧
    r !! "wgt" = Some w ∧
    r !! "hh_wgt" = Some hw.
Proof.
  intros H. cbv zeta. unfold summary_row in H.
  set (r1 := rename_col "y1" "imputed_hh_id" _) in *.
  destruct (r1 !! "race") as [race|] eqn:Erace; simpl in H; [|done].
  rewrite !lookup_insert_ne in H by done.
  destruct (r1 !! "imputed_hh_id") as [x|] eqn:Ex; simpl in H; [|done].
  destruct (r1 !! "household_id") as [y|] eqn:Ey; simpl in H; [|done].
  destruct (cell_op2 _ x y) as [imp|] eqn:Eimp; simpl in H; [|done].
  rewrite !lookup_insert_ne in H by done.
  destruct (r1 !! "wgt") as [w|] eqn:Ew; simpl in H; [|done].
  destruct (cell_op1 _ w) as [hw|] eqn:Ehw; simpl in H; [|done].
  injection H as <-.
  assert (Hother : ∀ k : string, k ≠ "y1" → k ≠ "imputed_hh_id" →
            k ≠ "yy1" → k ≠ "household_id" → r1 !! k = r0 !! k).
  { intros k ? ? ? ?. unfold r1. by rewrite !rename_col_other. }
  rewrite Hother in Erace, Ew by done.
  exists race, x, y, imp, w, hw.
  repeat split; try done;
    repeat (rewrite ?lookup_insert_eq; try done;
            rewrite lookup_insert_ne by done); try done.
  by rewrite Hother.
Qed.

(** A summary load is the raw load followed by [summary_row] on every
    row: the rows stay in place. *)
Lemma load_df_summary_rows files year datadir df :
  load_df files year "summary" datadir = Some df →
  ∃ raw, load_df files year "raw" datadir = Some raw ∧
         Forall2 (λ r0 r, summary_row r0 = Some r) raw df.
Proof.
  unfold load_df. simpl.
  destruct (read_stata files _) as [raw|]; simpl; [|done].
  intros H. exists raw. split; [done|]. by apply mapM_Some_1.
Qed.

Lemma load_df_row files year datadir df raw (i : nat) (r0 r : row) :
  load_df files year "summary" datadir = Some df →
  load_df files year "raw" datadir = Some raw →
  raw !! i = Some r0 → df !! i = Some r →
  summary_row r0 = Some r.
Proof.
  intros Hs Hr H0 H1.
  destruct (load_df_summary_rows _ _ _ _ Hs) as (raw' & Hr' & HF).
  rewrite Hr in Hr'. injection Hr' as <-.
  destruct (Forall2_lookup_l _ _ _ _ _ HF H0) as (r' & Hr' & Hrow).
  congruence.
Qed.

Lemma summary_row_ids (r0 r : row) (x y : cell) :
  summary_row r0 = Some r →
  r0 !! "y1" = Some x → r0 !! "yy1" = Some y →
  r !! "imputed_hh_id" = Some x ∧ r !! "household_id" = Some y ∧
  ∃ imp, cell_op2 (λ x y, x - y * 10)%Q x y = Some imp ∧
         r !! "implicate" = Some imp.
Proof.
  intros H Hx Hy.
  destruct (summary_row_inv _ _ H)
    as (race & x' & y' & imp & w & hw & _ & Hx' & Hy' & Himp & _ & _ &
        _ & Hrx & Hry & Hri & _).
  assert (x' = x) as ->.
  { rewrite (rename_col_new _ _ _ x) in Hx'; [congruence|].
    by rewrite rename_col_other. }
  assert (y' = y) as ->.
  { rewrite rename_col_other in Hy' by done.
    rewrite (rename_col_new _ _ _ y Hy) in Hy'. congruence. }
  eauto.
Qed.

(** A small survey file used to run the loader: household 1000 with its
    five implicates, and one record with the race code 6. *)
Definition mkrow (l : list (string * cell)) : row := list_to_map l.

Definition sample_raw_row (y1 yy1 race : Z) (wgt networth : Q) : row :=
  mkrow [("y1", CNum (inject_Z y1)); ("yy1", CNum (inject_Z yy1));
         ("race", CNum (inject_Z race)); ("wgt", CNum wgt);
         ("networth", CNum networth); ("vehic", CNum 1)].

Definition sample_raw : frame :=
  [ sample_raw_row 10001 1000 1 2 5;
    sample_raw_row 10002 1000 1 2 (-1);
    sample_raw_row 10003 1000 2 3 0;
    sample_raw_row 10004 1000 3 1 4;
    sample_raw_row 10005 1000 3 2 (-2);
    sample_raw_row 20011 2001 6 7 3 ].

Definition sample_files : gmap string content :=
  {[ "data/1992/rscfp1992.dta" := Dta sample_raw ]}.

(** C4: in a loaded summary dataset the implicate number of a row is its
    implicate identifier ([y1], renamed [imputed_hh_id]) minus ten times
    its household identifier ([yy1], renamed [household_id]); with the
    household 1000 and the identifier 10000 + k the number is k, so
    10001..10005 give 1..5. *)
Theorem load_df_implicate files year datadir df raw (i : nat) (r0 r : row)
    (a b : Q) :
  load_df files year "summary" datadir = Some df →
  load_df files year "raw" datadir = Some raw →
  raw !! i = Some r0 → df !! i = Some r →
  r0 !! "y1" = Some (CNum a) → r0 !! "yy1" = Some (CNum b) →
  r !! "imputed_hh_id" = Some (CNum a) ∧
  r !! "household_id" = Some (CNum b) ∧
  ∃ q, r !! "implicate" = Some (CNum q) ∧
       (q == a - 10 * b)%Q ∧
       ∀ k : Z, (a == inject_Z (10000 + k))%Q → (b == 1000)%Q →
                (q == inject_Z k)%Q.
Proof.
  intros Hs Hr H0 H1 Ha Hb.
  pose proof (load_df_row _ _ _ _ _ _ _ _ Hs Hr H0 H1) as Hrow.
  destruct (summary_row_ids _ _ _ _ Hrow Ha Hb) as (Hx & Hy & imp & Himp & Hi).
  simpl in Himp. injection Himp as <-.
  split; [done|]. split; [done|].
  eexists. split; [done|]. split; [ring|].
  intros k Hka Hkb. rewrite Hka, Hkb, inject_Z_plus. ring.
Qed.

Lemma load_df_implicate_witness :
  ∃ q, sample_raw_row 10003 1000 2 3 0 !! "y1" = Some (CNum 10003) ∧
       (q == 3)%Q.
Proof.
  destruct (load_df_implicate sample_files 1992 "data/"
              (default [] (load_df sample_files 1992 "summary" "data/"))
              sample_raw 2
              (sample_raw_row 10003 1000 2 3 0)
              (default ∅ (default [] (load_df sample_files 1992 "summary" "data/") !! 2%nat))
              10003 1000)
    as (_ & _ & q & _ & _ & Hk);
    [vm_compute; reflexivity ..|].
  exists q. split; [vm_compute; reflexivity|].
  apply (Hk 3%Z); reflexivity.
Defined.

(** C8: in a loaded summary dataset the adjusted weight [hh_wgt] of a
    row is its sampling weight [wgt] multiplied by 5. *)
Theorem load_df_hh_wgt files year datadir df raw (i : nat) (r0 r : row)
    (w : Q) :
  load_df files year "summary" datadir = Some df →
  load_df files year "raw" datadir = Some raw →
  raw !! i = Some r0 → df !! i = Some r →
  r0 !! "wgt" = Some (CNum w) →
  r !! "wgt" = Some (CNum w) ∧ r !! "hh_wgt" = Some (CNum (w * 5)%Q).
Proof.
  intros Hs Hr H0 H1 Hw.
  pose proof (load_df_row _ _ _ _ _ _ _ _ Hs Hr H0 H1) as Hrow.
  destruct (summary_row_inv _ _ Hrow)
    as (race & x & y & imp & w' & hw & _ & _ & _ & _ & Hw' & Hhw &
        _ & _ & _ & _ & Hrw & Hrh).
  rewrite Hw in Hw'. injection Hw' as <-.
  simpl in Hhw. injection Hhw as <-. done.
Qed.

Lemma load_df_hh_wgt_witness :
  default ∅ (default [] (load_df sample_files 1992 "summary" "data/") !! 5%nat)
    !! "hh_wgt" = Some (CNum (7 * 5)%Q).
Proof.
  refine (proj2 (load_df_hh_wgt sample_files 1992 "data/"
              (default [] (load_df sample_files 1992 "summary" "data/"))
              sample_raw 5
              (sample_raw_row 20011 2001 6 7 3)
              _ 7 _ _ _ _ _));
    vm_compute; reflexivity.
Defined.

(** C6: in a loaded summary dataset the race codes 1 to 5 are replaced by
    their labels, and every other value of the race column (the code 6,
    a text, a missing value) becomes the missing value, which is none of
    the labels. *)
Theorem load_df_race files year datadir df raw (i : nat) (r0 r : row)
    (c : cell) :
  load_df files year "summary" datadir = Some df →
  load_df files year "raw" datadir = Some raw →
  raw !! i = Some r0 → df !! i = Some r →
  r0 !! "race" = Some c →
  (∀ q, c = CNum q →
     ((q == 1)%Q → r !! "race" = Some (CStr "white non-Hispanic")) ∧
     ((q == 2)%Q → r !! "race" = Some (CStr "black/African-American")) ∧
     ((q == 3)%Q → r !! "race" = Some (CStr "Hispanic")) ∧
     ((q == 4)%Q → r !! "race" = Some (CStr "Asian")) ∧
     ((q == 5)%Q → r !! "race" = Some (CStr "other")) ∧
     ((q == 6)%Q → r !! "race" = Some CNaN) ∧
     (¬ (q == 1)%Q → ¬ (q == 2)%Q → ¬ (q == 3)%Q → ¬ (q == 4)%Q →
      ¬ (q == 5)%Q → r !! "race" = Some CNaN)) ∧
  ((∀ q, c ≠ CNum q) → r !! "race" = Some CNaN) ∧
  (r !! "race" = Some CNaN → ∀ l, r !! "race" ≠ Some (CStr l)).
Proof.
  intros Hs Hr H0 H1 Hc.
  pose proof (load_df_row _ _ _ _ _ _ _ _ Hs Hr H0 H1) as Hrow.
  destruct (summary_row_inv _ _ Hrow)
    as (race & x & y & imp & w' & hw & Hrace & _ & _ & _ & _ & _ &
        Hrr & _).
  rewrite Hc in Hrace. injection Hrace as <-. rewrite Hrr.
  split; [|split].
  - intros q ->. simpl.
    assert (Hcase : ∀ n : Q, Qeq_bool q n = true ↔ (q == n)%Q)
      by (intros; apply Qeq_bool_iff).
    repeat split; intros;
      repeat match goal with
        | |- context [Qeq_bool q ?n] =>
            let E := fresh "E" in
            destruct (Qeq_bool q n) eqn:E;
            [apply Hcase in E|apply Qeq_bool_neq in E]
        end; try done;
      exfalso;
      repeat match goal with
        | H : (q == _)%Q |- _ => rewrite H in *; clear H
        end;
      try done; try (by apply Qeq_bool_neq in E);
      match goal with H : ¬ _ |- _ => by (apply H) | H : (_ == _)%Q |- _ => by vm_compute in H end.
  - destruct c; try done. intros H. by destruct (H q).
  - intros -> l. done.
Qed.

Lemma load_df_race_witness :
  default ∅ (default [] (load_df sample_files 1992 "summary" "data/") !! 5%nat)
    !! "race" = Some CNaN.
Proof.
  destruct (load_df_race sample_files 1992 "data/"
              (default [] (load_df sample_files 1992 "summary" "data/"))
              sample_raw 5
              (sample_raw_row 20011 2001 6 7 3)
              (default ∅ (default [] (load_df sample_files 1992 "summary" "data/") !! 5%nat))
              (CNum 6))
    as (Hnum & _ & _); [vm_compute; reflexivity ..|].
  destruct (Hnum 6%Q eq_refl) as (_ & _ & _ & _ & _ & H6 & _).
  apply H6. reflexivity.
Defined.

(** ** The aggregator *)

(** *** The statistics as the specification writes them *)

(** The number in column [c] of a row. *)
Definition num_at (c : string) (r : row) : Q :=
  match r !! c with
  | Some (CNum q) => q
  | _ => 0%Q
  end.

#[global] Instance Q_eq_dec : EqDecision Q.
Proof. solve_decision. Defined.

#[global] Instance cell_eq_dec : EqDecision cell.
Proof. solve_decision. Defined.

(** The sum of [f] over rows. *)
Definition sumQ (f : row → Q) (rows : frame) : Q :=
  foldr (λ r acc, (f r + acc)%Q) 0%Q rows.

(** The rows of the category [s] of the grouping column. *)
Definition cat_rows (df : frame) (grouper s : string) : frame :=
  filter (λ r : row, r !! grouper = Some (CStr s)) df.

(** The weight of a row, counted when its value in [c] is not positive. *)
Definition wgt_nonpos (c : string) (r : row) : Q :=
  if Qle_bool (num_at c r) 0 then num_at "wgt" r else 0%Q.

(** Σ(weight × value) / Σ(weight) *)
Definition weighted_average (rows : frame) (var : string) : Q :=
  (sumQ (λ r, num_at "wgt" r * num_at var r) rows / sumQ (num_at "wgt") rows)%Q.

(** Σ(weight over rows where the value of [c] ≤ 0) / Σ(weight), in
    percent, rounded to one decimal place. *)
Definition nonpos_share (rows : frame) (c : string) : Q :=
  round1 (100 * (sumQ (wgt_nonpos c) rows / sumQ (num_at "wgt") rows)).

(** *** Sums *)

Lemma fold_left_Qplus (l : list Q) (a : Q) :
  (fold_left Qplus l a == a + foldr Qplus 0 l)%Q.
Proof.
  revert a. induction l as [|x l IH]; intros a; simpl.
  - ring.
  - rewrite IH. ring.
Qed.

Lemma py_sum_map (f : row → Q) (rows : frame) :
  (py_sum (map f rows) == sumQ f rows)%Q.
Proof.
  unfold py_sum. rewrite fold_left_Qplus, Qplus_0_l.
  induction rows as [|r rows IH]; simpl; [reflexivity|].
  by rewrite IH.
Qed.

Lemma sumQ_app (f : row → Q) (l1 l2 : frame) :
  (sumQ f (l1 ++ l2) == sumQ f l1 + sumQ f l2)%Q.
Proof.
  induction l1 as [|r l1 IH]; simpl; [ring|]. rewrite IH. ring.
Qed.

Lemma sumQ_ext (f g : row → Q) (rows : frame) :
  (∀ r, r ∈ rows → (f r == g r)%Q) → (sumQ f rows == sumQ g rows)%Q.
Proof.
  induction rows as [|r rows IH]; intros H; simpl; [reflexivity|].
  rewrite (H r) by (by left). rewrite IH; [reflexivity|].
  intros r' Hr'. apply H. by right.
Qed.

Lemma sumQ_pos (f : row → Q) (rows : frame) :
  rows ≠ [] → (∀ r, r ∈ rows → (0 < f r)%Q) → (0 < sumQ f rows)%Q.
Proof.
  induction rows as [|r rows IH]; intros Hne H; [done|]. simpl.
  destruct rows as [|r' rows].
  - simpl. rewrite Qplus_0_r. apply H. by left.
  - rewrite <- (Qplus_0_l 0). apply Qplus_lt_le_compat.
    + apply H. by left.
    + apply Qlt_le_weak, IH; [done|]. intros r'' Hr''. apply H. by right.
Qed.

(** *** Columns *)

Lemma column_num_Some (rows : frame) (c : string) (l : list Q) :
  column_num rows c = Some l →
  l = map (num_at c) rows ∧ ∀ r, r ∈ rows → ∃ q, r !! c = Some (CNum q).
Proof.
  unfold column_num, column. intros H.
  apply bind_Some in H as (col & Hcol & Hl).
  apply mapM_Some_1 in Hcol. apply mapM_Some_1 in Hl.
  revert l Hl. induction Hcol as [|r cl rows col Hr Hcol IH]; intros l Hl.
  - inversion Hl. split; [done|]. intros r Hr. by apply elem_of_nil in Hr.
  - inversion Hl as [|? q ? l' Hq Hl']; subst.
    destruct (IH _ Hl') as [-> Hall].
    destruct cl; simpl in Hq; try done. injection Hq as ->.
    split.
    + simpl. f_equal. unfold num_at. by rewrite Hr.
    + intros r' [->|Hr']%elem_of_cons; eauto.
Qed.

Lemma column_num_total (rows : frame) (c : string) :
  (∀ r, r ∈ rows → ∃ q, r !! c = Some (CNum q)) →
  column_num rows c = Some (map (num_at c) rows).
Proof.
  intros H. unfold column_num, column.
  apply bind_Some. exists (map (λ r, CNum (num_at c r)) rows). split.
  - apply mapM_Some_2. induction rows as [|r rows IH]; simpl; constructor.
    + destruct (H r) as [q Hq]; [by left|]. unfold num_at. by rewrite Hq.
    + apply IH. intros r' Hr'. apply H. by right.
  - apply mapM_Some_2. clear H.
    induction rows as [|r rows IH]; simpl; by constructor.
Qed.

Lemma zip_with_map_rows (f g : row → Q) (rows : frame) :
  zip_with Qmult (map f rows) (map g rows) = map (λ r, (f r * g r)%Q) rows.
Proof. induction rows; simpl; congruence. Qed.

Lemma filter_zip_rows (f g : row → Q) (rows : frame) :
  (py_sum (fst <$> List.filter (λ p : Q * Q, Qle_bool p.2 0)
                     (zip (map f rows) (map g rows)))
   == sumQ (λ r, if Qle_bool (g r) 0 then f r else 0) rows)%Q.
Proof.
  unfold py_sum. rewrite fold_left_Qplus, Qplus_0_l.
  induction rows as [|r rows IH]; simpl; [reflexivity|].
  destruct (Qle_bool (g r) 0); simpl; rewrite IH; ring.
Qed.

(** The selection of a category is the rows of the category. *)
Lemma select_cat_rows (df : frame) (grouper s : string) :
  select df grouper (CStr s) = cat_rows df grouper s.
Proof.
  unfold select, cat_rows. induction df as [|r df IH]; [done|].
  simpl. rewrite filter_cons, IH.
  destruct (r !! grouper) as [[q|t|]|] eqn:E; simpl; try done.
  destruct (String.eqb t s) eqn:Et.
  - apply String.eqb_eq in Et as ->. by rewrite decide_True.
  - apply String.eqb_neq in Et. rewrite decide_False; [done|congruence].
Qed.

(** *** Rounding and division *)

Lemma rint_comp (x y : Q) : (x == y)%Q → rint x = rint y.
Proof.
  intros H. unfold rint. rewrite (Qfloor_comp _ _ H).
  assert (E : (x - inject_Z (Qfloor y) ?= 1 # 2)%Q
              = (y - inject_Z (Qfloor y) ?= 1 # 2)%Q)
    by (apply Qcompare_comp; [by rewrite H|reflexivity]).
  by rewrite E.
Qed.

Lemma round1_comp (x y : Q) : (x == y)%Q → round1 x = round1 y.
Proof.
  intros H. unfold round1. f_equal. f_equal. apply rint_comp. by rewrite H.
Qed.

Lemma fdiv_Some (a b q : Q) :
  fdiv a b = Some q ↔ ¬ (b == 0)%Q ∧ q = (a / b)%Q.
Proof.
  unfold fdiv. destruct (Qeq_bool b 0) eqn:E.
  - apply Qeq_bool_iff in E. split; [done|]. by intros [? _].
  - apply Qeq_bool_neq in E. split; [by intros [= <-]|by intros [_ ->]].
Qed.

(** *** One group *)

Definition numeric_col (c : string) (rows : frame) : Prop :=
  ∀ r, r ∈ rows → ∃ q, r !! c = Some (CNum q).

Lemma group_stats_Some (rows : frame) (var : string) (va nw pct : Q) :
  group_stats rows var = Some (va, nw, pct) →
  ¬ (sumQ (num_at "wgt") rows == 0)%Q ∧
  (va == weighted_average rows var)%Q ∧
  (nw == sumQ (wgt_nonpos "networth") rows)%Q ∧
  pct = nonpos_share rows "networth".
Proof.
  unfold group_stats. intros H.
  apply bind_Some in H as (wgt & Hw & H).
  apply bind_Some in H as (v & Hv & H).
  apply bind_Some in H as (va' & Hva & H).
  apply bind_Some in H as (networth & Hn & H).
  apply bind_Some in H as (share & Hsh & H).
  injection H as <- <- <-.
  apply column_num_Some in Hw as [-> _].
  apply column_num_Some in Hv as [-> _].
  apply column_num_Some in Hn as [-> _].
  apply fdiv_Some in Hva as [Hne ->]. apply fdiv_Some in Hsh as [_ ->].
  rewrite py_sum_map in Hne.
  split; [done|]. split; [|split].
  - unfold weighted_average.
    by rewrite zip_with_map_rows, !py_sum_map.
  - apply filter_zip_rows.
  - unfold nonpos_share. apply round1_comp.
    by rewrite filter_zip_rows, py_sum_map.
Qed.

Lemma group_stats_total (rows : frame) (var : string) :
  numeric_col "wgt" rows → numeric_col var rows →
  numeric_col "networth" rows →
  ¬ (sumQ (num_at "wgt") rows == 0)%Q →
  is_Some (group_stats rows var).
Proof.
  intros Hw Hv Hn Hne. unfold group_stats.
  rewrite (column_num_total _ _ Hw), (column_num_total _ _ Hv),
    (column_num_total _ _ Hn). simpl.
  assert (E : Qeq_bool (py_sum (map (num_at "wgt") rows)) 0 = false).
  { destruct (Qeq_bool _ 0) eqn:E; [|done].
    apply Qeq_bool_iff in E. rewrite py_sum_map in E. done. }
  unfold fdiv. rewrite E. simpl. eauto.
Qed.

(** *** The loop over the categories *)

(** The statistic that the flag selects. *)
Definition pick (avg_worth : bool) (st : Q * Q * Q) : Q :=
  if avg_worth then st.1.1 else st.2.

Lemma group_loop_cons df var grouper avg_worth gcat rest acc :
  group_loop df var grouper avg_worth (gcat :: rest) acc =
  if str_is_nan gcat then group_loop df var grouper avg_worth rest acc
  else st ← group_stats (select df grouper gcat) var;
       key ← text_of gcat;
       group_loop df var grouper avg_worth rest (<[key := pick avg_worth st]> acc).
Proof.
  simpl. destruct (str_is_nan gcat); [done|].
  destruct (group_stats _ var) as [[[va nw] pct]|]; [|done]. done.
Qed.

(** After the loop a key holds what it held before, or the statistic of
    a category of the list. *)
Lemma group_loop_inv df var grouper avg_worth cats acc m (s : string) :
  group_loop df var grouper avg_worth cats acc = Some m →
  m !! s = acc !! s ∨
  (CStr s ∈ cats ∧ str_is_nan (CStr s) = false ∧
   ∃ st, group_stats (select df grouper (CStr s)) var = Some st ∧
         m !! s = Some (pick avg_worth st)).
Proof.
  revert acc. induction cats as [|gcat rest IH]; intros acc H.
  - injection H as <-. by left.
  - rewrite group_loop_cons in H.
    destruct (str_is_nan gcat) eqn:En.
    { destruct (IH _ H) as [?|(? & ? & ?)]; [by left|].
      right. split; [by right|done]. }
    apply bind_Some in H as (st & Hst & H).
    apply bind_Some in H as (key & Hkey & H).
    destruct gcat as [|key'|]; simpl in Hkey; try done.
    injection Hkey as ->.
    destruct (IH _ H) as [E|(? & ? & ?)].
    + destruct (decide (key = s)) as [->|Hne].
      * right. rewrite lookup_insert_eq in E.
        split; [by left|]. split; [done|]. eauto.
      * left. by rewrite lookup_insert_ne in E.
    + right. split; [by right|done].
Qed.

(** A category of the list that is not the text nan has its statistic
    in the mapping. *)
Lemma group_loop_lookup df var grouper avg_worth cats acc m (s : string) :
  group_loop df var grouper avg_worth cats acc = Some m →
  CStr s ∈ cats → str_is_nan (CStr s) = false →
  ∃ st, group_stats (select df grouper (CStr s)) var = Some st ∧
        m !! s = Some (pick avg_worth st).
Proof.
  revert acc. induction cats as [|gcat rest IH]; intros acc H Hin Hnan.
  - by apply elem_of_nil in Hin.
  - rewrite group_loop_cons in H.
    apply elem_of_cons in Hin as [<-|Hin].
    + rewrite Hnan in H.
      apply bind_Some in H as (st & Hst & H). simpl in H.
      destruct (group_loop_inv _ _ _ _ _ _ _ s H) as [E|(_ & _ & ?)]; [|done].
      rewrite lookup_insert_eq in E. eauto.
    + destruct (str_is_nan gcat); [by eapply IH|].
      apply bind_Some in H as (st & Hst & H).
      apply bind_Some in H as (key & Hkey & H).
      by eapply IH.
Qed.

Lemma group_loop_total df var grouper avg_worth cats acc :
  (∀ c, c ∈ cats →
     str_is_nan c = true ∨
     ∃ s, c = CStr s ∧ is_Some (group_stats (select df grouper c) var)) →
  is_Some (group_loop df var grouper avg_worth cats acc).
Proof.
  revert acc. induction cats as [|gcat rest IH]; intros acc H; [by eexists|].
  rewrite group_loop_cons.
  assert (Hrest : ∀ c, c ∈ rest →
     str_is_nan c = true ∨
     ∃ s, c = CStr s ∧ is_Some (group_stats (select df grouper c) var))
    by (intros c Hc; apply H; by right).
  destruct (H gcat) as [->|(s & -> & [st Hst])]; [by left|by apply IH|].
  destruct (str_is_nan (CStr s)); [by apply IH|].
  rewrite Hst. simpl. by apply IH.
Qed.

(** *** The index of the categories *)

Lemma cell_eqb_text (s : string) (c : cell) :
  cell_eqb (CStr s) c = true ↔ c = CStr s.
Proof.
  destruct c as [q|t|]; simpl; try (split; done).
  rewrite String.eqb_eq. split; congruence.
Qed.

Lemma distinct_cells_text (seen col : list cell) (s : string) :
  CStr s ∈ col → CStr s ∈ distinct_cells seen col ∨ CStr s ∈ seen.
Proof.
  revert seen. induction col as [|c col IH]; intros seen Hin.
  - by apply elem_of_nil in Hin.
  - simpl. apply elem_of_cons in Hin as [<-|Hin].
    + simpl. destruct (existsb _ seen) eqn:E.
      * right. apply existsb_exists in E as (c & Hc & Heq).
        apply cell_eqb_text in Heq as ->. by apply list_elem_of_In.
      * left. by left.
    + destruct (is_nan c || existsb (cell_eqb c) seen); [by apply IH|].
      destruct (IH (c :: seen) Hin) as [?|[->|?]%elem_of_cons].
      * left. by right.
      * left. by left.
      * by right.
Qed.

Lemma distinct_cells_sub (seen col : list cell) (c : cell) :
  c ∈ distinct_cells seen col → c ∈ col ∧ is_nan c = false.
Proof.
  revert seen. induction col as [|d col IH]; intros seen Hin.
  - by apply elem_of_nil in Hin.
  - simpl in Hin. destruct (is_nan d) eqn:En; simpl in Hin.
    { destruct (IH _ Hin). split; [by right|done]. }
    destruct (existsb (cell_eqb d) seen).
    { destruct (IH _ Hin). split; [by right|done]. }
    apply elem_of_cons in Hin as [->|Hin]; [split; [by left|done]|].
    destruct (IH _ Hin). split; [by right|done].
Qed.

Lemma value_counts_index_text (col : list cell) (s : string) :
  CStr s ∈ value_counts_index col ↔ CStr s ∈ col.
Proof.
  split.
  - intros H. by apply distinct_cells_sub in H as [? _].
  - intros H. destruct (distinct_cells_text [] col s H) as [?|Hnil]; [done|].
    by apply elem_of_nil in Hnil.
Qed.

(** *** The whole aggregation *)

Lemma column_text (df : frame) (c s : string) (col : list cell) :
  column df c = Some col → (CStr s ∈ col ↔ cat_rows df c s ≠ []).
Proof.
  unfold column, cat_rows. intros H. apply mapM_Some_1 in H.
  induction H as [|r cl df col Hr H IH].
  - split; [by intros ?%elem_of_nil|done].
  - rewrite filter_cons, elem_of_cons. destruct (decide _) as [E|E].
    + split; [done|]. intros _. left. congruence.
    + rewrite <- IH. split; [|by right].
      intros [<-|?]; [|done]. by destruct E.
Qed.

Lemma display_group_avgs_Some df var grouper avg_worth m :
  display_group_avgs df var grouper avg_worth = Some m ↔
  ∃ col t, column df grouper = Some col ∧
    group_loop df var grouper avg_worth (value_counts_index col) ∅ = Some m ∧
    total_average df var = Some t.
Proof.
  unfold display_group_avgs. split.
  - intros H. apply bind_Some in H as (col & Hcol & H).
    apply bind_Some in H as (m' & Hm & H).
    apply bind_Some in H as (t & Ht & H). injection H as ->. eauto.
  - intros (col & t & -> & Hm & Ht). simpl. rewrite Hm. simpl.
    by rewrite Ht.
Qed.

(** A category with a row, other than the text nan, has its statistic
    in the returned mapping. *)
Lemma display_group_avgs_lookup df var grouper avg_worth m (s : string) :
  display_group_avgs df var grouper avg_worth = Some m →
  cat_rows df grouper s ≠ [] → str_is_nan (CStr s) = false →
  ∃ st, group_stats (cat_rows df grouper s) var = Some st ∧
        m !! s = Some (pick avg_worth st).
Proof.
  intros H Hne Hnan.
  apply display_group_avgs_Some in H as (col & t & Hcol & Hm & _).
  rewrite <- select_cat_rows.
  eapply group_loop_lookup; [done| |done].
  apply value_counts_index_text. by apply (column_text df grouper s col).
Qed.

(** The keys of the returned mapping are categories with a row. *)
Lemma display_group_avgs_key df var grouper avg_worth m (s : string) (q : Q) :
  display_group_avgs df var grouper avg_worth = Some m →
  m !! s = Some q →
  cat_rows df grouper s ≠ [] ∧ str_is_nan (CStr s) = false.
Proof.
  intros H Hq.
  apply display_group_avgs_Some in H as (col & t & Hcol & Hm & _).
  destruct (group_loop_inv _ _ _ _ _ _ _ s Hm) as [E|(Hin & Hnan & _)].
  - rewrite lookup_empty in E. congruence.
  - split; [|done]. apply (column_text df grouper s col Hcol).
    by apply value_counts_index_text.
Qed.

Lemma total_average_Some (df : frame) (var : string) (t : Q) :
  total_average df var = Some t →
  ¬ (sumQ (num_at "wgt") df == 0)%Q ∧ (t == weighted_average df var)%Q.
Proof.
  unfold total_average. intros H.
  apply bind_Some in H as (wgt & Hw & H).
  apply bind_Some in H as (v & Hv & H).
  apply column_num_Some in Hw as [-> _].
  apply column_num_Some in Hv as [-> _].
  apply fdiv_Some in H as [Hne ->]. rewrite py_sum_map in Hne.
  split; [done|]. unfold weighted_average.
  by rewrite zip_with_map_rows, !py_sum_map.
Qed.

(** Tables on which the aggregation is defined: the grouping column
    holds texts or missing values, the three numeric columns hold
    numbers, and the weights are positive. *)
Definition well_formed (df : frame) (var grouper : string) : Prop :=
  df ≠ [] ∧
  (∀ r, r ∈ df → r !! grouper = Some CNaN ∨ ∃ s, r !! grouper = Some (CStr s)) ∧
  numeric_col "wgt" df ∧ numeric_col var df ∧ numeric_col "networth" df ∧
  (∀ r, r ∈ df → (0 < num_at "wgt" r)%Q).

Lemma display_group_avgs_total df var grouper avg_worth :
  well_formed df var grouper →
  is_Some (display_group_avgs df var grouper avg_worth).
Proof.
  intros (Hne & Hg & Hw & Hv & Hn & Hpos).
  assert (Hcol : ∃ col, column df grouper = Some col ∧
                        ∀ c, c ∈ col → c = CNaN ∨ ∃ s, c = CStr s).
  { clear Hne Hw Hv Hn Hpos. unfold column.
    induction df as [|r df IH]; [exists []; split; [done|]; by intros ? ?%elem_of_nil|].
    destruct IH as (col & Hcol & Hc); [intros r' Hr'; apply Hg; by right|].
    destruct (Hg r) as [E|[s E]]; [by left| |].
    - exists (CNaN :: col). simpl. rewrite E. simpl. rewrite Hcol. simpl.
      split; [done|]. intros c [->|?]%elem_of_cons; eauto.
    - exists (CStr s :: col). simpl. rewrite E. simpl. rewrite Hcol. simpl.
      split; [done|]. intros c [->|?]%elem_of_cons; eauto. }
  destruct Hcol as (col & Hcol & Hc).
  assert (Hsub : ∀ s, numeric_col "wgt" (cat_rows df grouper s) ∧
                      numeric_col var (cat_rows df grouper s) ∧
                      numeric_col "networth" (cat_rows df grouper s) ∧
                      ∀ r, r ∈ cat_rows df grouper s → (0 < num_at "wgt" r)%Q).
  { intros s. unfold cat_rows.
    repeat split; intros r [_ Hr]%list_elem_of_filter; auto. }
  assert (Hloop : is_Some (group_loop df var grouper avg_worth
                             (value_counts_index col) ∅)).
  { apply group_loop_total. intros c Hc'.
    apply distinct_cells_sub in Hc' as [Hin Hnan].
    destruct (Hc c Hin) as [->|[s ->]]; [done|]. right. exists s.
    split; [done|]. rewrite select_cat_rows.
    destruct (Hsub s) as (? & ? & ? & Hp).
    apply group_stats_total; try done.
    intros E. apply (column_text df grouper s col Hcol) in Hin.
    pose proof (sumQ_pos (num_at "wgt") _ Hin Hp) as Hlt.
    rewrite E in Hlt. by apply Qlt_irrefl in Hlt. }
  destruct Hloop as [m Hm].
  exists m. apply display_group_avgs_Some. exists col.
  assert (Ht : is_Some (total_average df var)).
  { unfold total_average.
    rewrite (column_num_total _ _ Hw), (column_num_total _ _ Hv). simpl.
    unfold fdiv. destruct (Qeq_bool _ 0) eqn:E; [|by eexists].
    apply Qeq_bool_iff in E. rewrite py_sum_map in E.
    pose proof (sumQ_pos (num_at "wgt") _ Hne Hpos) as Hlt.
    rewrite E in Hlt. by apply Qlt_irrefl in Hlt. }
  destruct Ht as [t Ht]. eauto.
Qed.

(** A table to run the aggregator on: two groups of equal weight, each
    with half of its weight on rows without net worth. *)
Definition sample_hh (race : string) (wgt networth income : Q) : row :=
  mkrow [("race", CStr race); ("wgt", CNum wgt);
         ("networth", CNum networth); ("income", CNum income)].

Definition sample_df : frame :=
  [ sample_hh "Hispanic" 3 (-2) 10;
    sample_hh "Asian" 3 0 (-4);
    sample_hh "Hispanic" 1 7 30;
    sample_hh "Asian" 3 9 8;
    sample_hh "Hispanic" 2 4 20 ].





(** *** The weighted average *)

Lemma sumQ_two_cats (f : row → Q) (df : frame) (grouper s1 s2 : string) :
  s1 ≠ s2 →
  (∀ r, r ∈ df → r !! grouper = Some (CStr s1) ∨ r !! grouper = Some (CStr s2)) →
  (sumQ f df == sumQ f (cat_rows df grouper s1) + sumQ f (cat_rows df grouper s2))%Q.
Proof.
  intros Hne H. unfold cat_rows. induction df as [|r df IH]; [reflexivity|].
  rewrite !filter_cons. simpl.
  rewrite IH by (intros r' Hr'; apply H; by right).
  destruct (H r) as [E|E]; [by left| |]; rewrite E.
  - rewrite decide_True by done. rewrite decide_False by congruence.
    simpl. ring.
  - rewrite decide_False by congruence. rewrite decide_True by done.
    simpl. ring.
Qed.

(** C3: for every category of the grouping column that has a row and is
    not the text nan, the average returned by the aggregator is the sum
    of weight times [var] over the category's rows divided by the sum of
    their weights; and on a table of two categories of equal weight the
    average over all rows, which the aggregator computes for its report,
    is the mean of the two averages.  On a well-formed table the
    aggregator returns. *)
Theorem display_group_avgs_average (df : frame) (var grouper : string) :
  (well_formed df var grouper →
   is_Some (display_group_avgs df var grouper true)) ∧
  ∀ m, display_group_avgs df var grouper true = Some m →
    (∀ s, cat_rows df grouper s ≠ [] → str_is_nan (CStr s) = false →
       ∃ q, m !! s = Some q ∧
            (q == weighted_average (cat_rows df grouper s) var)%Q) ∧
    (∀ s1 s2 q1 q2, s1 ≠ s2 →
       (∀ r, r ∈ df → r !! grouper = Some (CStr s1) ∨
                      r !! grouper = Some (CStr s2)) →
       (sumQ (num_at "wgt") (cat_rows df grouper s1)
        == sumQ (num_at "wgt") (cat_rows df grouper s2))%Q →
       m !! s1 = Some q1 → m !! s2 = Some q2 →
       ∃ t, total_average df var = Some t ∧ (t == (q1 + q2) / 2)%Q).
Proof.
  split; [apply display_group_avgs_total|].
  intros m H.
  assert (Hcat : ∀ s, cat_rows df grouper s ≠ [] → str_is_nan (CStr s) = false →
            ∃ q, m !! s = Some q ∧
                 ¬ (sumQ (num_at "wgt") (cat_rows df grouper s) == 0)%Q ∧
                 (q == weighted_average (cat_rows df grouper s) var)%Q).
  { intros s Hne Hnan.
    destruct (display_group_avgs_lookup _ _ _ _ _ _ H Hne Hnan)
      as ([[va nw] pct] & Hst & Hm).
    apply group_stats_Some in Hst as (Hw & Hva & _). eauto. }
  split.
  { intros s Hne Hnan. destruct (Hcat s Hne Hnan) as (q & ? & _ & ?). eauto. }
  intros s1 s2 q1 q2 Hs Hall Hw H1 H2.
  destruct (display_group_avgs_key _ _ _ _ _ _ _ H H1) as [Hne1 Hnan1].
  destruct (display_group_avgs_key _ _ _ _ _ _ _ H H2) as [Hne2 Hnan2].
  destruct (Hcat s1 Hne1 Hnan1) as (q1' & E1 & Hw1 & Hq1).
  destruct (Hcat s2 Hne2 Hnan2) as (q2' & E2 & Hw2 & Hq2).
  rewrite H1 in E1. rewrite H2 in E2. injection E1 as <-. injection E2 as <-.
  pose proof H as H'.
  apply display_group_avgs_Some in H' as (col & t & _ & _ & Ht).
  exists t. split; [done|].
  apply total_average_Some in Ht as [_ ->].
  rewrite Hq1, Hq2. unfold weighted_average.
  rewrite (sumQ_two_cats _ df grouper s1 s2 Hs Hall).
  rewrite (sumQ_two_cats (num_at "wgt") df grouper s1 s2 Hs Hall).
  rewrite Hw. field. split; [done|].
  intros E. apply Hw2.
  destruct (Qmult_integral 2 (sumQ (num_at "wgt") (cat_rows df grouper s2)))
    as [E2|E2]; [rewrite <- E; ring|discriminate E2|done].
Qed.

Lemma display_group_avgs_average_witness :
  ∃ m q1 q2 t, display_group_avgs sample_df "income" "race" true = Some m ∧
    m !! "Hispanic" = Some q1 ∧ m !! "Asian" = Some q2 ∧
    total_average sample_df "income" = Some t ∧ (t == (q1 + q2) / 2)%Q.
Proof.
  destruct (display_group_avgs_average sample_df "income" "race") as [_ H].
  destruct (H (default ∅ (display_group_avgs sample_df "income" "race" true)))
    as [_ H2]; [vm_compute; reflexivity|].
  edestruct (H2 "Hispanic" "Asian") as (t & Ht & Heq).
  - discriminate.
  - intros r Hr. repeat (apply elem_of_cons in Hr as [->|Hr]);
      [by left|by right|by left|by right|by left|by apply elem_of_nil in Hr].
  - reflexivity.
  - vm_compute. reflexivity.
  - vm_compute. reflexivity.
  - eexists _, _, _, t. split; [vm_compute; reflexivity|].
    split; [vm_compute; reflexivity|]. split; [vm_compute; reflexivity|].
    split; [exact Ht|exact Heq].
Defined.

(** *** The columns that the aggregator reads *)

Lemma column_agree (c : string) (df1 df2 : frame) :
  Forall2 (λ r1 r2 : row, r1 !! c = r2 !! c) df1 df2 →
  column df1 c = column df2 c.
Proof.
  unfold column. induction 1 as [|r1 r2 df1 df2 Hr _ IH]; [done|].
  simpl. by rewrite Hr, IH.
Qed.

Lemma column_num_agree (c : string) (df1 df2 : frame) :
  Forall2 (λ r1 r2 : row, r1 !! c = r2 !! c) df1 df2 →
  column_num df1 c = column_num df2 c.
Proof. intros H. unfold column_num. by rewrite (column_agree _ _ _ H). Qed.

(** Two rows with the same weight, the same [var] and the same net
    worth. *)
Definition same_numbers (var : string) (r1 r2 : row) : Prop :=
  r1 !! "wgt" = r2 !! "wgt" ∧ r1 !! var = r2 !! var ∧
  r1 !! "networth" = r2 !! "networth".

Lemma group_stats_agree (var : string) (df1 df2 : frame) :
  Forall2 (same_numbers var) df1 df2 →
  group_stats df1 var = group_stats df2 var.
Proof.
  intros H. unfold group_stats.
  rewrite (column_num_agree "wgt" df1 df2),
    (column_num_agree var df1 df2),
    (column_num_agree "networth" df1 df2); [done|..];
    (eapply Forall2_impl; [exact H|]); by intros r1 r2 (? & ? & ?).
Qed.

Lemma total_average_agree (var : string) (df1 df2 : frame) :
  Forall2 (same_numbers var) df1 df2 →
  total_average df1 var = total_average df2 var.
Proof.
  intros H. unfold total_average.
  rewrite (column_num_agree "wgt" df1 df2),
    (column_num_agree var df1 df2); [done|..];
    (eapply Forall2_impl; [exact H|]); by intros r1 r2 (? & ? & ?).
Qed.

(** Two rows with the same category and the same numbers. *)
Definition agree (var grouper : string) (r1 r2 : row) : Prop :=
  r1 !! grouper = r2 !! grouper ∧ r1 !! var = r2 !! var ∧
  r1 !! "networth" = r2 !! "networth" ∧ r1 !! "wgt" = r2 !! "wgt".

Lemma select_agree (var grouper : string) (gcat : cell) (df1 df2 : frame) :
  Forall2 (agree var grouper) df1 df2 →
  Forall2 (same_numbers var) (select df1 grouper gcat) (select df2 grouper gcat).
Proof.
  unfold select. induction 1 as [|r1 r2 df1 df2 (Hg & Hv & Hn & Hw) _ IH];
    [constructor|].
  simpl. rewrite Hg. destruct (r2 !! grouper) as [c|]; [|done].
  destruct (cell_eqb c gcat); [|done]. by constructor.
Qed.

Lemma group_loop_agree var grouper avg_worth cats acc (df1 df2 : frame) :
  Forall2 (agree var grouper) df1 df2 →
  group_loop df1 var grouper avg_worth cats acc =
  group_loop df2 var grouper avg_worth cats acc.
Proof.
  intros H. revert acc. induction cats as [|gcat rest IH]; intros acc; [done|].
  rewrite !group_loop_cons.
  rewrite (group_stats_agree var _ _ (select_agree var grouper gcat _ _ H)).
  destruct (str_is_nan gcat); [done|].
  destruct (group_stats _ var) as [st|]; [|done]. simpl.
  destruct (text_of gcat); [|done]. simpl. apply IH.
Qed.

(** C9: two tables that agree row by row on the grouping column, on
    [var], on [networth] and on [wgt] get the same result from the
    aggregator, the same mapping or the same failure: no other column,
    [hh_wgt] and [implicate] among them, is read. *)
Theorem display_group_avgs_agree (df1 df2 : frame) (var grouper : string)
    (avg_worth : bool) :
  Forall2 (agree var grouper) df1 df2 →
  display_group_avgs df1 var grouper avg_worth =
  display_group_avgs df2 var grouper avg_worth.
Proof.
  intros H. unfold display_group_avgs.
  rewrite (column_agree grouper df1 df2)
    by (eapply Forall2_impl; [exact H|]; by intros r1 r2 (? & _)).
  destruct (column df2 grouper) as [col|]; [|done]. simpl.
  rewrite (group_loop_agree _ _ _ _ _ _ _ H).
  destruct (group_loop df2 _ _ _ _ _) as [m|]; [|done]. simpl.
  rewrite (total_average_agree var df1 df2); [done|].
  eapply Forall2_impl; [exact H|]. by intros r1 r2 (? & ? & ? & ?).
Qed.

Lemma display_group_avgs_agree_witness :
  display_group_avgs
    [ <["hh_wgt" := CNum 15]> (<["implicate" := CNum 1]> (sample_hh "Asian" 3 0 8)) ]
    "income" "race" false =
  display_group_avgs
    [ <["hh_wgt" := CStr "x"]> (sample_hh "Asian" 3 0 8) ]
    "income" "race" false.
Proof.
  apply display_group_avgs_agree.
  constructor; [|constructor]. by vm_compute.
Defined.

(** ** The world: directories, files, the remote server, the calls made *)

Inductive event : Type :=
| EvMakedirs (path : string)       (* os.makedirs(path) *)
| EvGet (url : string)             (* requests.get(url) *)
| EvWrite (path : string)          (* a file opened for writing *)
| EvExtract (zip dir : string).    (* ZipFile(zip).extractall(dir) *)

Record world : Type := World {
  w_dirs : gset string;
  w_files : gmap string content;
  w_remote : gmap string content;
  w_log : list event }.

(** A computation runs in a world and leaves a world, with a result
    unless it raised. *)
Definition M (A : Type) : Type := world → option A * world.

#[global] Instance M_ret : MRet M := λ A x w, (Some x, w).

#[global] Instance M_bind : MBind M := λ A B f m w,
  match m w with
  | (Some x, w') => f x w'
  | (None, w') => (None, w')
  end.

(** A pure step that may raise. *)
Definition lift {A : Type} (o : option A) : M A := λ w, (o, w).

Definition get_world : M world := λ w, (Some w, w).

Definition put_world (w' : world) : M () := λ _, (Some (), w').

Definition log (e : event) : M () := λ w,
  (Some (), World (w_dirs w) (w_files w) (w_remote w) (w_log w ++ [e])).

(** [os.path.exists(p)] *)
Definition path_exists (p : string) : M bool := λ w,
  (Some (bool_decide (p ∈ w_dirs w) || bool_decide (is_Some (w_files w !! p))), w).

(** The directories above a path: its prefixes before each separator. *)
Fixpoint parents_aux (acc s : string) : list string :=
  match s with
  | EmptyString => []
  | String a s' =>
      (if Ascii.eqb a "/" && negb (String.eqb acc "") then [acc] else [])
      ++ parents_aux (acc ++ String a EmptyString) s'
  end.

Definition parents (p : string) : list string := parents_aux "" p.

(** [os.makedirs(p)]: the directory and those above it; raises when the
    path is empty or exists, or when a file stands where a directory is
    needed. *)
Definition makedirs (p : string) : M () :=
  _ ← log (EvMakedirs p);
  ex ← path_exists p;
  w ← get_world;
  if String.eqb p "" || ex
     || existsb (λ a, bool_decide (is_Some (w_files w !! a))) (parents p)
  then lift None
  else put_world (World (w_dirs w ∪ {[p]} ∪ list_to_set (parents p))
                        (w_files w) (w_remote w) (w_log w)).

(** [os.path.dirname] *)
Fixpoint head_to_last_sep (s : string) : option string :=
  match s with
  | EmptyString => None
  | String a s' =>
      match head_to_last_sep s' with
      | Some h => Some (String a h)
      | None => if Ascii.eqb a "/" then Some (String a EmptyString) else None
      end
  end.

Fixpoint rstrip_sep (s : string) : string :=
  match s with
  | EmptyString => EmptyString
  | String a s' =>
      let t := rstrip_sep s' in
      if Ascii.eqb a "/" && String.eqb t "" then EmptyString else String a t
  end.

Definition dirname (p : string) : string :=
  let head := default "" (head_to_last_sep p) in
  if String.eqb (rstrip_sep head) "" then head else rstrip_sep head.

(** A file opened for writing and written: its directory must exist and
    the path must not be a directory. *)
Definition write_file (p : string) (c : content) : M () :=
  _ ← log (EvWrite p);
  w ← get_world;
  if (String.eqb (dirname p) "" || bool_decide (dirname p ∈ w_dirs w))
     && negb (bool_decide (p ∈ w_dirs w))
  then put_world (World (w_dirs w) (<[p := c]> (w_files w)) (w_remote w) (w_log w))
  else lift None.

(** [requests.get(url).content]: what the server sends, or the error of
    a failed connection. *)
Definition http_get (url : string) : M content :=
  _ ← log (EvGet url);
  w ← get_world;
  lift (w_remote w !! url).

(** [ZipFile(targetzip).extractall(targetdir)] and [namelist()]: the
    members are written under the directory; raises when the file is
    not an archive. *)
Definition extract_all (targetzip targetdir : string) : M (list string) :=
  _ ← log (EvExtract targetzip targetdir);
  w ← get_world;
  match w_files w !! targetzip with
  | Some (ZipArchive members) =>
      _ ← put_world
        (World (w_dirs w ∪ {[targetdir]} ∪ list_to_set (parents targetdir))
               (foldr (λ m fs, <[os_path_join targetdir [m.1] := Dta m.2]> fs)
                      (w_files w) members)
               (w_remote w) (w_log w));
      mret (fst <$> members)
  | _ => lift None
  end.

(** ** The fetcher *)

Definition URL_DL_ZIP (targetzip targetdir url : string) : M (list string) :=
  r ← http_get url;
  _ ← write_file targetzip r;
  files ← extract_all targetzip targetdir;
  mret ((λ file, os_path_join targetdir [file]) <$> files).

Definition SCF_load_data (datadir : string) (year : Z) (filetype : string)
    (to_df : bool) : M (string + frame) :=
  let targetdir := os_path_join datadir [str_Z year] in
  ex ← path_exists targetdir;
  _ ← (if negb ex then makedirs targetdir else mret ());
  let targetzip :=
    os_path_join targetdir ["SCF" ++ str_Z year ++ "_data_public_" ++ filetype ++ ".zip"] in
  file_string ← lift (if String.eqb filetype "summary" then Some "p"
                      else if String.eqb filetype "raw" then Some ""
                      else None);
  let panel_string := if negb (year mod 3 =? 0)%Z then "p" else "" in
  let url_params := file_string ++ str_Z year ++ panel_string in
  let url := "https://www.federalreserve.gov/econres/files/scf" ++ url_params ++ "s.zip" in
  SCF_file_locs ← URL_DL_ZIP targetzip targetdir url;
  first ← lift (head SCF_file_locs);
  if to_df then
    w ← get_world;
    SCF_data ← lift (read_stata (w_files w) first);
    mret (inr SCF_data)
  else mret (inl first).

(** [range(start, stop, step)] for a positive step. *)
Definition py_range (start stop step : Z) : list Z :=
  (λ i : nat, (start + step * Z.of_nat i)%Z)
    <$> seq 0 (Z.to_nat ((stop - start + step - 1) / step)).

(** [for x in l: s = body(x, s)] *)
Fixpoint for_each {A S : Type} (l : list A) (body : A → S → M S) (s : S) : M S :=
  match l with
  | [] => mret s
  | x :: l' => s' ← body x s; for_each l' body s'
  end.

(** The name [os.path.exists], not called: a function object, which is
    true. *)
Definition os_path_exists_object : bool := true.

Definition scrape_SCF (datadir : string) (start until : Z)
    (filetypes : list string) : M (gmap Z (gmap string string)) :=
  let paths : gmap Z (gmap string string) := ∅ in
  _ ← (if negb os_path_exists_object then makedirs datadir else mret ());
  let yrange := py_range start (until + 3) 3 in
  for_each yrange
    (λ year paths,
       let paths := <[year := ∅]> paths in
       for_each filetypes
         (λ filetype paths,
            r ← SCF_load_data datadir year filetype false;
            match r with
            | inl path =>
                mret (<[year := <[filetype := path]> (default ∅ (paths !! year))]> paths)
            | inr _ => lift None
            end)
         paths)
    paths.

(** ** The figures over time: [calc_zero_networth_races_overtime] *)

(** [df['networth_withcar'] = df.networth.copy()] and
    [df.networth -= df.vehic], on one row. *)
Definition subtract_car_row (r : row) : option row :=
  nw ← r !! "networth";
  let r1 := <["networth_withcar" := nw]> r in
  nw1 ← r1 !! "networth";
  vehic ← r1 !! "vehic";
  d ← cell_op2 Qminus nw1 vehic;
  Some (<["networth" := d]> r1).

(** [Series.replace(old, new)] on one value. *)
Definition replace_text (old new : string) (c : cell) : cell :=
  match c with
  | CStr s => if String.eqb s old then CStr new else c
  | _ => c
  end.

(** [df.race = df.race.replace(old, new)] on one row. *)
Definition replace_race (old new : string) (r : row) : option row :=
  c ← r !! "race";
  Some (<["race" := replace_text old new c]> r).

Definition group_black_hispanic_rows (df : frame) : option frame :=
  df1 ← mapM (replace_race "Hispanic" "black & hispanic") df;
  mapM (replace_race "black/African-American" "black & hispanic") df1.

(** [d[k] = v] on a dict kept in the order of insertion. *)
Fixpoint dict_set {V : Type} (k : Z) (v : V) (d : list (Z * V)) : list (Z * V) :=
  match d with
  | [] => [(k, v)]
  | (k', v') :: d' =>
      if (k' =? k)%Z then (k, v) :: d' else (k', v') :: dict_set k v d'
  end.

(** [pd.DataFrame(ot_data)] of a dict of dicts: a column for every outer
    key, a row for every inner key, a missing value where a column has
    no such key.  The rows are in the order of [remove_dups] here; pandas
    has its own. *)
Definition DataFrame_of (ot_data : list (Z * gmap string Q)) : table :=
  let index := remove_dups (ot_data ≫= λ p, (map_to_list p.2).*1) in
  Table (LStr <$> index)
        (LInt <$> ot_data.*1)
        ((λ s : string, (λ p : Z * gmap string Q, p.2 !! s) <$> ot_data) <$> index).

Definition calc_zero_networth_races_overtime
    (group_black_hispanic subtract_car_value : bool) (start until : Z)
  : M table :=
  let ot_data : list (Z * gmap string Q) := [] in
  ot_data ←
    for_each (py_range start until 3)
      (λ year ot_data,
         w ← get_world;
         df ← lift (load_df (w_files w) year "summary" "data/");
         df ← lift (if subtract_car_value then mapM subtract_car_row df
                    else Some df);
         df ← lift (if group_black_hispanic then group_black_hispanic_rows df
                    else Some df);
         g ← lift (display_group_avgs df "networth" "race" false);
         mret (dict_set year g ot_data))
      ot_data;
  let data := DataFrame_of ot_data in
  let fname := "pct_neg_wealth" in
  let fname := if subtract_car_value then fname ++ "_vehics_removed" else fname in
  let fname := if group_black_hispanic then fname ++ "_blackhisp_grouped" else fname in
  ex ← path_exists "negative_wealth";
  _ ← (if negb ex then makedirs "negative_wealth" else mret ());
  _ ← write_file ("negative_wealth" ++ "/" ++ fname ++ ".csv") (Csv data);
  mret data.

(** ** The merge of two categories *)

(** The label of a row after the two replacements. *)
Definition merge_label (c : cell) : cell :=
  replace_text "black/African-American" "black & hispanic"
    (replace_text "Hispanic" "black & hispanic" c).

(** The rows labelled Hispanic or black/African-American. *)
Definition union_rows (df : frame) : frame :=
  filter (λ r : row, r !! "race" = Some (CStr "Hispanic") ∨
                     r !! "race" = Some (CStr "black/African-American")) df.

(** A row and the row the merge makes of it. *)
Definition merged (r r' : row) : Prop :=
  ∃ c, r !! "race" = Some c ∧ r' = <["race" := merge_label c]> r.

Lemma replace_race_Some (old new : string) (r r' : row) :
  replace_race old new r = Some r' →
  ∃ c, r !! "race" = Some c ∧ r' = <["race" := replace_text old new c]> r.
Proof.
  unfold replace_race. intros H. apply bind_Some in H as (c & Hc & H).
  injection H as <-. eauto.
Qed.

Lemma group_black_hispanic_rows_Some (df df' : frame) :
  group_black_hispanic_rows df = Some df' → Forall2 merged df df'.
Proof.
  unfold group_black_hispanic_rows. intros H.
  apply bind_Some in H as (df1 & H1 & H2).
  apply mapM_Some_1 in H1. apply mapM_Some_1 in H2.
  eapply Forall2_trans; [|exact H1|exact H2].
  intros r r1 r' Hr1 Hr'. simpl in *.
  apply replace_race_Some in Hr1 as (c & Hc & ->).
  apply replace_race_Some in Hr' as (c' & Hc' & ->).
  rewrite lookup_insert_eq in Hc'. injection Hc' as <-.
  exists c. split; [done|]. by rewrite insert_insert_eq.
Qed.

Lemma merge_label_combined (c : cell) :
  c ≠ CStr "black & hispanic" →
  merge_label c = CStr "black & hispanic" ↔
  c = CStr "Hispanic" ∨ c = CStr "black/African-American".
Proof.
  intros Hc. unfold merge_label. destruct c as [q|s|]; simpl;
    [split; [done|by intros [|]]| |split; [done|by intros [|]]].
  destruct (String.eqb s "Hispanic") eqn:E1; simpl.
  { apply String.eqb_eq in E1 as ->. split; [by left|done]. }
  destruct (String.eqb s "black/African-American") eqn:E2.
  { apply String.eqb_eq in E2 as ->. split; [by right|done]. }
  apply String.eqb_neq in E1, E2. split; [done|].
  intros [[= ->]|[= ->]]; done.
Qed.

Lemma merged_filter (df df' : frame) :
  Forall2 merged df df' →
  (∀ r, r ∈ df → r !! "race" ≠ Some (CStr "black & hispanic")) →
  Forall2 merged (union_rows df) (cat_rows df' "race" "black & hispanic").
Proof.
  unfold union_rows, cat_rows.
  induction 1 as [|r r' df df' Hr _ IH]; intros Hno; [constructor|].
  rewrite !filter_cons.
  assert (IH' := IH (λ r0 Hr0, Hno r0 (proj2 (elem_of_cons _ _ _) (or_intror Hr0)))).
  pose proof Hr as (c & Hc & ->). rewrite lookup_insert_eq.
  assert (Hc' : c ≠ CStr "black & hispanic").
  { intros ->. by apply (Hno r); [left|]. }
  pose proof (merge_label_combined c Hc') as Hiff.
  destruct (decide (r !! "race" = Some (CStr "Hispanic") ∨ _)) as [E|E].
  - rewrite decide_True; [by constructor|].
    f_equal. apply Hiff. rewrite Hc in E. destruct E as [[= ->]|[= ->]]; eauto.
  - rewrite decide_False; [done|]. intros [= E']. apply E.
    apply Hiff in E' as [-> | ->]; rewrite Hc; eauto.
Qed.

(** The race column of a loaded summary dataset holds the five labels
    or a missing value, never the combined label. *)
Lemma race_map_not_combined (c : cell) : race_map c ≠ CStr "black & hispanic".
Proof.
  destruct c as [q|s|]; simpl; try done.
  repeat (destruct (Qeq_bool q _); [done|]). done.
Qed.

Lemma load_df_not_combined files year datadir df (r : row) :
  load_df files year "summary" datadir = Some df → r ∈ df →
  r !! "race" ≠ Some (CStr "black & hispanic").
Proof.
  intros H Hr.
  destruct (load_df_summary_rows _ _ _ _ H) as (raw & _ & HF).
  apply list_elem_of_lookup in Hr as [i Hi].
  destruct (Forall2_lookup_r _ _ _ _ _ HF Hi) as (r0 & _ & Hrow).
  destruct (summary_row_inv _ _ Hrow)
    as (race & x & y & imp & w & hw & _ & _ & _ & _ & _ & _ & Hrr & _).
  rewrite Hrr. intros [= E]. by apply race_map_not_combined in E.
Qed.

(** The statistics of the combined category after the merge are those of
    the union of the two categories before it. *)
Lemma merged_group_stats (rows rows' : frame) (var : string) st :
  Forall2 merged rows rows' →
  (∀ r', r' ∈ rows' → ∃ s, r' !! "race" = Some (CStr s)) →
  group_stats rows' var = Some st → group_stats rows var = Some st.
Proof.
  intros HF Htext Hst.
  destruct (decide (var = "race")) as [->|Hvar].
  - exfalso. unfold group_stats in Hst.
    apply bind_Some in Hst as (wgt & Hw & Hst).
    apply bind_Some in Hst as (v & Hv & Hst).
    apply column_num_Some in Hw as [-> _].
    apply column_num_Some in Hv as [-> Hnum].
    destruct rows' as [|r' rows'].
    + by vm_compute in Hst.
    + destruct (Hnum r') as [q Hq]; [by left|].
      destruct (Htext r') as [s Hs]; [by left|]. congruence.
  - rewrite <- Hst. apply group_stats_agree.
    eapply Forall2_impl; [exact HF|].
    intros r r' (c & _ & ->). unfold same_numbers.
    by rewrite !lookup_insert_ne.
Qed.

Lemma cat_rows_text (df : frame) (grouper s : string) (r : row) :
  r ∈ cat_rows df grouper s → r !! grouper = Some (CStr s).
Proof. unfold cat_rows. by intros [? _]%list_elem_of_filter. Qed.

Lemma merge_label_other (c : cell) (s : string) :
  s ≠ "Hispanic" → s ≠ "black/African-American" → s ≠ "black & hispanic" →
  merge_label c = CStr s ↔ c = CStr s.
Proof.
  intros H1 H2 H3. unfold merge_label. destruct c as [q|t|]; simpl; try done.
  destruct (String.eqb t "Hispanic") eqn:E1; simpl.
  { apply String.eqb_eq in E1 as ->. split; intros [= ?]; congruence. }
  destruct (String.eqb t "black/African-American") eqn:E2; [|done].
  apply String.eqb_eq in E2 as ->. split; intros [= ?]; congruence.
Qed.

Lemma merge_label_gone (c : cell) :
  merge_label c ≠ CStr "Hispanic" ∧
  merge_label c ≠ CStr "black/African-American".
Proof.
  unfold merge_label. destruct c as [q|t|]; simpl; try done.
  destruct (String.eqb t "Hispanic") eqn:E1; simpl; [done|].
  destruct (String.eqb t "black/African-American") eqn:E2; [done|].
  apply String.eqb_neq in E1, E2. split; congruence.
Qed.

Lemma merged_cat_rows (df df' : frame) (s : string) :
  s ≠ "Hispanic" → s ≠ "black/African-American" → s ≠ "black & hispanic" →
  Forall2 merged df df' →
  Forall2 merged (cat_rows df "race" s) (cat_rows df' "race" s).
Proof.
  intros H1 H2 H3. unfold cat_rows.
  induction 1 as [|r r' df df' Hr _ IH]; [constructor|].
  rewrite !filter_cons.
  pose proof Hr as (c & Hc & ->). rewrite lookup_insert_eq, Hc.
  pose proof (merge_label_other c s H1 H2 H3) as Hiff.
  destruct (decide (Some c = Some (CStr s))) as [E|E].
  - rewrite decide_True; [by constructor|].
    f_equal. apply Hiff. congruence.
  - rewrite decide_False; [done|]. intros [= E']. apply E.
    f_equal. by apply Hiff.
Qed.

Lemma merged_gone (df df' : frame) (s : string) :
  s = "Hispanic" ∨ s = "black/African-American" →
  Forall2 merged df df' → cat_rows df' "race" s = [].
Proof.
  intros Hs HF. unfold cat_rows.
  induction HF as [|r r' df df' (c & Hc & ->) _ IH]; [done|].
  rewrite filter_cons, IH, lookup_insert_eq.
  rewrite decide_False; [done|]. intros [= E].
  destruct (merge_label_gone c) as [? ?]. destruct Hs as [-> | ->]; done.
Qed.

Lemma Forall2_nil_iff {A B : Type} (R : A → B → Prop) (l : list A) (k : list B) :
  Forall2 R l k → (l = [] ↔ k = []).
Proof. by destruct 1. Qed.

(** The merge of the two categories, then the aggregation: on a table
    in which no row carries the combined label yet, the combined label
    gets the statistics of the rows labelled Hispanic or
    black/African-American, taken together, and has no entry when there
    is no such row; the two labels themselves have no entry left. *)
Theorem merge_then_aggregate (df df' : frame) (var : string)
    (avg_worth : bool) (m : gmap string Q) :
  (∀ r, r ∈ df → r !! "race" ≠ Some (CStr "black & hispanic")) →
  group_black_hispanic_rows df = Some df' →
  display_group_avgs df' var "race" avg_worth = Some m →
  (union_rows df ≠ [] →
     ∃ st, group_stats (union_rows df) var = Some st ∧
           m !! "black & hispanic" = Some (pick avg_worth st)) ∧
  (union_rows df = [] → m !! "black & hispanic" = None) ∧
  m !! "Hispanic" = None ∧ m !! "black/African-American" = None.
Proof.
  intros Hno Hmerge Hm.
  apply group_black_hispanic_rows_Some in Hmerge.
  pose proof (merged_filter _ _ Hmerge Hno) as HF.
  split; [|split; [|split]].
  - intros Hne.
    destruct (display_group_avgs_lookup _ _ _ _ _ "black & hispanic" Hm)
      as (st & Hst & Hq); [|done|].
    { intros E. apply Hne. by apply (Forall2_nil_iff _ _ _ HF). }
    exists st. split; [|done].
    eapply merged_group_stats; [exact HF| |exact Hst].
    intros r' Hr'. apply cat_rows_text in Hr'. eauto.
  - intros E. destruct (m !! "black & hispanic") as [q|] eqn:Eq; [|done].
    destruct (display_group_avgs_key _ _ _ _ _ _ _ Hm Eq) as [Hne _].
    destruct Hne. by apply (Forall2_nil_iff _ _ _ HF).
  - destruct (m !! "Hispanic") as [q|] eqn:Eq; [|done].
    destruct (display_group_avgs_key _ _ _ _ _ _ _ Hm Eq) as [Hne _].
    destruct Hne. eapply merged_gone; [by left|done].
  - destruct (m !! "black/African-American") as [q|] eqn:Eq; [|done].
    destruct (display_group_avgs_key _ _ _ _ _ _ _ Hm Eq) as [Hne _].
    destruct Hne. eapply merged_gone; [by right|done].
Qed.

Definition sample_races : frame :=
  [ sample_hh "Hispanic" 3 (-2) 10;
    sample_hh "black/African-American" 1 0 4;
    sample_hh "white non-Hispanic" 2 9 8;
    sample_hh "Hispanic" 2 4 20 ].

Lemma merge_then_aggregate_witness :
  ∃ st, group_stats (union_rows sample_races) "networth" = Some st ∧
        default ∅ (display_group_avgs
                     (default [] (group_black_hispanic_rows sample_races))
                     "networth" "race" false)
          !! "black & hispanic" = Some (pick false st).
Proof.
  refine (proj1 (merge_then_aggregate sample_races
              (default [] (group_black_hispanic_rows sample_races))
              "networth" false _ _ _ _) _).
  - intros r Hr.
    repeat (apply elem_of_cons in Hr as [->|Hr]); try (by vm_compute).
    by apply elem_of_nil in Hr.
  - vm_compute. reflexivity.
  - vm_compute. reflexivity.
  - by vm_compute.
Defined.

(** The merge leaves the other categories alone: a label other than the
    three has the same entry with and without the merge. *)
Theorem merge_keeps_others (df df' : frame) (var s : string)
    (avg_worth : bool) (m m' : gmap string Q) :
  s ≠ "Hispanic" → s ≠ "black/African-American" → s ≠ "black & hispanic" →
  group_black_hispanic_rows df = Some df' →
  display_group_avgs df var "race" avg_worth = Some m →
  display_group_avgs df' var "race" avg_worth = Some m' →
  m' !! s = m !! s.
Proof.
  intros H1 H2 H3 Hmerge Hm Hm'.
  apply group_black_hispanic_rows_Some in Hmerge.
  pose proof (merged_cat_rows _ _ s H1 H2 H3 Hmerge) as HF.
  destruct (m' !! s) as [q'|] eqn:E'.
  - destruct (display_group_avgs_key _ _ _ _ _ _ _ Hm' E') as [Hne' Hnan].
    destruct (display_group_avgs_lookup _ _ _ _ _ s Hm' Hne' Hnan)
      as (st & Hst & Hq).
    destruct (display_group_avgs_lookup _ _ _ _ _ s Hm) as (st0 & Hst0 & Hq0);
      [|done|].
    { intros E. apply Hne'. by apply (Forall2_nil_iff _ _ _ HF). }
    assert (Hst' : group_stats (cat_rows df "race" s) var = Some st).
    { eapply merged_group_stats; [exact HF| |exact Hst].
      intros r' Hr'. apply cat_rows_text in Hr'. eauto. }
    congruence.
  - destruct (m !! s) as [q|] eqn:E; [|done].
    destruct (display_group_avgs_key _ _ _ _ _ _ _ Hm E) as [Hne Hnan].
    destruct (display_group_avgs_lookup _ _ _ _ _ s Hm') as (st & _ & Hq);
      [|done|congruence].
    intros E0. apply Hne. by apply (Forall2_nil_iff _ _ _ HF).
Qed.

Lemma merge_keeps_others_witness :
  default ∅ (display_group_avgs
               (default [] (group_black_hispanic_rows sample_races))
               "networth" "race" false) !! "white non-Hispanic"
  = default ∅ (display_group_avgs sample_races "networth" "race" false)
      !! "white non-Hispanic".
Proof.
  apply (merge_keeps_others sample_races
           (default [] (group_black_hispanic_rows sample_races))
           "networth" "white non-Hispanic" false);
    try discriminate; vm_compute; reflexivity.
Defined.

(** ** Paths *)

(** A text without a separator. *)
Fixpoint no_sep (s : string) : bool :=
  match s with
  | EmptyString => true
  | String a s' => negb (Ascii.eqb a "/") && no_sep s'
  end.

Lemma no_sep_uint (d : Decimal.uint) : no_sep (NilEmpty.string_of_uint d) = true.
Proof. induction d; simpl; done. Qed.

Lemma str_Z_no_sep (n : Z) : no_sep (str_Z n) = true.
Proof.
  unfold str_Z, NilZero.string_of_int, NilZero.string_of_uint.
  destruct (Z.to_int n) as [d|d]; destruct d; simpl; try done;
    apply no_sep_uint.
Qed.

Lemma str_Z_nonempty (n : Z) : str_Z n ≠ "".
Proof.
  unfold str_Z, NilZero.string_of_int, NilZero.string_of_uint.
  destruct (Z.to_int n) as [d|d]; destruct d; simpl; done.
Qed.

Lemma no_sep_startswith (s : string) : no_sep s = true → startswith_sep s = false.
Proof.
  destruct s as [|a s]; [done|]. simpl. intros H.
  apply andb_prop in H as [Ha _]. apply negb_true_iff, Ascii.eqb_neq in Ha.
  destruct a as [[] [] [] [] [] [] [] []]; try done.
Qed.

Lemma endswith_sep_app (a b : string) :
  b ≠ "" → endswith_sep (a ++ b) = endswith_sep b.
Proof.
  intros Hb. induction a as [|c a IH]; [done|].
  simpl. rewrite IH. destruct (a ++ b) eqn:E; [|done].
  destruct a, b; simpl in E; done.
Qed.

Lemma no_sep_endswith (s : string) : no_sep s = true → endswith_sep s = false.
Proof.
  induction s as [|a s IH]; [done|]. simpl. intros H.
  apply andb_prop in H as [Ha Hs]. apply negb_true_iff in Ha.
  destruct s; [done|]. by apply IH.
Qed.

Lemma string_app_cons (x : ascii) (a b : string) :
  String x a ++ b = String x (a ++ b).
Proof. done. Qed.

Lemma string_app_assoc (a b c : string) : (a ++ b) ++ c = a ++ b ++ c.
Proof.
  induction a as [|x a IH]; [done|]. rewrite !string_app_cons. congruence.
Qed.

Lemma string_app_nonempty (a b : string) : b ≠ "" → a ++ b ≠ "".
Proof. destruct a, b; rewrite ?string_app_cons; done. Qed.

Lemma string_length_app (a b : string) :
  String.length (a ++ b) = (String.length a + String.length b)%nat.
Proof.
  induction a as [|x a IH]; [done|]. rewrite string_app_cons. simpl. congruence.
Qed.

(** The separator that [os.path.join] puts after its first component:
    none when the component is empty or already ends with one. *)
Definition sep_after (a : string) : string :=
  if String.eqb a "" || endswith_sep a then "" else "/".

Lemma join_step_relative (a b : string) :
  startswith_sep b = false → join_step a b = a ++ sep_after a ++ b.
Proof.
  intros Hb. unfold join_step, sep_after. rewrite Hb.
  by destruct (String.eqb a "" || endswith_sep a).
Qed.

(** The directory of a year. *)
Lemma os_path_join_year (datadir : string) (year : Z) :
  os_path_join datadir [str_Z year] = datadir ++ sep_after datadir ++ str_Z year.
Proof.
  unfold os_path_join. simpl. apply join_step_relative, no_sep_startswith, str_Z_no_sep.
Qed.

Lemma sep_after_year (datadir : string) (year : Z) :
  sep_after (datadir ++ sep_after datadir ++ str_Z year) = "/".
Proof.
  unfold sep_after at 1.
  rewrite <- string_app_assoc.
  rewrite endswith_sep_app by apply str_Z_nonempty.
  rewrite (no_sep_endswith _ (str_Z_no_sep year)).
  destruct (String.eqb _ "") eqn:E; [|done].
  apply String.eqb_eq in E. by apply string_app_nonempty in E; [|apply str_Z_nonempty].
Qed.

(** A file in the directory of a year. *)
Lemma os_path_join_year_file (datadir : string) (year : Z) (f : string) :
  startswith_sep f = false →
  os_path_join datadir [str_Z year; f] =
  datadir ++ sep_after datadir ++ str_Z year ++ "/" ++ f.
Proof.
  intros Hf. unfold os_path_join. simpl.
  rewrite (join_step_relative datadir) by apply no_sep_startswith, str_Z_no_sep.
  rewrite join_step_relative by done.
  rewrite sep_after_year. by rewrite !string_app_assoc.
Qed.

Lemma os_path_join_nested (a b c : string) :
  os_path_join (os_path_join a [b]) [c] = os_path_join a [b; c].
Proof. done. Qed.

(** The directory of a year is never the base directory. *)
Lemma year_dir_not_base (datadir : string) (year : Z) :
  os_path_join datadir [str_Z year] ≠ datadir.
Proof.
  rewrite os_path_join_year. intros E.
  apply (f_equal String.length) in E.
  rewrite !string_length_app in E.
  pose proof (str_Z_nonempty year) as Hne.
  destruct (str_Z year); [done|]. simpl in E. lia.
Qed.

(** ** The calls that a computation makes *)

(** [emits P must m]: whatever the world, [m] adds to the log only
    events that satisfy [P], and when it returns it has added those of
    [must]. *)
Definition emits {A : Type} (P : event → Prop) (must : list event) (m : M A) : Prop :=
  ∀ w, ∃ evs, w_log (m w).2 = (w_log w ++ evs)%list ∧ Forall P evs ∧
              (is_Some (m w).1 → must ⊆ evs).

Lemma emits_ret {A : Type} (P : event → Prop) (x : A) : emits P [] (mret x).
Proof.
  intros w. exists []. simpl. rewrite app_nil_r.
  split; [done|]. split; [constructor|]. intros _ e He. done.
Qed.

Lemma emits_lift {A : Type} (P : event → Prop) (o : option A) : emits P [] (lift o).
Proof.
  intros w. exists []. simpl. rewrite app_nil_r.
  split; [done|]. split; [constructor|]. intros _ e He. done.
Qed.

Lemma emits_get_world (P : event → Prop) : emits P [] get_world.
Proof.
  intros w. exists []. simpl. rewrite app_nil_r.
  split; [done|]. split; [constructor|]. intros _ e He. done.
Qed.

Lemma emits_path_exists (P : event → Prop) (p : string) : emits P [] (path_exists p).
Proof.
  intros w. exists []. simpl. rewrite app_nil_r.
  split; [done|]. split; [constructor|]. intros _ e He. done.
Qed.

Lemma emits_log (P : event → Prop) (e : event) : P e → emits P [e] (log e).
Proof.
  intros He w. exists [e]. simpl. split; [done|].
  split; [by constructor|]. done.
Qed.

Lemma emits_bind {A B : Type} (P : event → Prop) (must1 must2 : list event)
    (m : M A) (f : A → M B) :
  emits P must1 m → (∀ x, emits P must2 (f x)) →
  emits P (must1 ++ must2)%list (m ≫= f).
Proof.
  intros Hm Hf w. unfold mbind, M_bind.
  destruct (Hm w) as (evs1 & Hlog1 & HP1 & Hmust1).
  destruct (m w) as [[x|] w1] eqn:E; simpl in *.
  - destruct (Hf x w1) as (evs2 & Hlog2 & HP2 & Hmust2).
    exists (evs1 ++ evs2)%list. rewrite Hlog2, Hlog1, app_assoc.
    split; [done|]. split; [by apply Forall_app|].
    intros Hs e [He|He]%elem_of_app; apply elem_of_app.
    + left. apply Hmust1; [by eexists|done].
    + right. by apply Hmust2.
  - exists evs1. split; [done|]. split; [done|]. by intros [? ?].
Qed.

Lemma emits_weaken {A : Type} (P Q : event → Prop) (must must' : list event)
    (m : M A) :
  (∀ e, P e → Q e) → must' ⊆ must → emits P must m → emits Q must' m.
Proof.
  intros HPQ Hsub Hm w. destruct (Hm w) as (evs & Hlog & HP & Hmust).
  exists evs. split; [done|]. split; [by eapply Forall_impl|].
  intros Hs e He. by apply Hmust, Hsub.
Qed.

Lemma emits_for_each {A S : Type} (P : event → Prop) (l : list A)
    (body : A → S → M S) (s : S) :
  (∀ x s', x ∈ l → emits P [] (body x s')) → emits P [] (for_each l body s).
Proof.
  revert s. induction l as [|x l IH]; intros s H; simpl.
  - apply emits_ret.
  - apply (emits_bind P [] []).
    + apply H. by left.
    + intros s'. apply IH. intros y s'' Hy. apply H. by right.
Qed.

Lemma emits_with_world {A : Type} (P : event → Prop) (must : list event)
    (f : world → M A) :
  (∀ w, ∃ evs, w_log (f w w).2 = (w_log w ++ evs)%list ∧ Forall P evs ∧
               (is_Some (f w w).1 → must ⊆ evs)) →
  emits P must (get_world ≫= f).
Proof. intros H w. apply H. Qed.

Lemma emits_put_same_log (P : event → Prop) (w : world) (w' : world) :
  w_log w' = w_log w →
  ∃ evs, w_log (put_world w' w).2 = (w_log w ++ evs)%list ∧ Forall P evs ∧
         (is_Some (put_world w' w).1 → [] ⊆ evs).
Proof.
  intros E. exists []. simpl. rewrite app_nil_r.
  split; [done|]. split; [constructor|]. done.
Qed.

Lemma emits_makedirs (P : event → Prop) (p : string) :
  P (EvMakedirs p) → emits P [EvMakedirs p] (makedirs p).
Proof.
  intros HP. unfold makedirs.
  apply (emits_bind P [_] []); [by apply emits_log|intros _].
  apply (emits_bind P [] []); [apply emits_path_exists|intros ex].
  apply emits_with_world. intros w.
  destruct (_ || _); [apply emits_lift|]. by apply emits_put_same_log.
Qed.

Lemma emits_write_file (P : event → Prop) (p : string) (c : content) :
  P (EvWrite p) → emits P [EvWrite p] (write_file p c).
Proof.
  intros HP. unfold write_file.
  apply (emits_bind P [_] []); [by apply emits_log|intros _].
  apply emits_with_world. intros w.
  destruct (_ && _); [|apply emits_lift]. by apply emits_put_same_log.
Qed.

Lemma emits_http_get (P : event → Prop) (url : string) :
  P (EvGet url) → emits P [EvGet url] (http_get url).
Proof.
  intros HP. unfold http_get.
  apply (emits_bind P [_] []); [by apply emits_log|intros _].
  apply (emits_bind P [] []); [apply emits_get_world|intros w].
  apply emits_lift.
Qed.

Lemma emits_extract_all (P : event → Prop) (zip dir : string) :
  P (EvExtract zip dir) → emits P [EvExtract zip dir] (extract_all zip dir).
Proof.
  intros HP. unfold extract_all.
  apply (emits_bind P [_] []); [by apply emits_log|intros _].
  apply emits_with_world. intros w.
  destruct (w_files w !! zip) as [[| members | |]|]; try apply emits_lift.
  exists []. simpl. rewrite app_nil_r.
  split; [done|]. split; [constructor|]. done.
Qed.

(** [URL_DL_ZIP] asks for the URL it is given, writes the archive where
    it is told and extracts it there, in this order and nothing else. *)
Lemma emits_URL_DL_ZIP (P : event → Prop) (targetzip targetdir url : string) :
  P (EvGet url) → P (EvWrite targetzip) → P (EvExtract targetzip targetdir) →
  emits P [EvGet url; EvWrite targetzip; EvExtract targetzip targetdir]
    (URL_DL_ZIP targetzip targetdir url).
Proof.
  intros H1 H2 H3. unfold URL_DL_ZIP.
  apply (emits_bind P [_] [_; _]); [by apply emits_http_get|intros r].
  apply (emits_bind P [_] [_]); [by apply emits_write_file|intros _].
  apply (emits_bind P [_] []); [by apply emits_extract_all|intros files].
  apply emits_ret.
Qed.

Lemma emits_lift_Some {A B : Type} (P : event → Prop) (must : list event)
    (x : A) (f : A → M B) :
  emits P must (f x) → emits P must (lift (Some x) ≫= f).
Proof. intros H w. apply H. Qed.

Lemma emits_lift_None {A B : Type} (P : event → Prop) (must : list event)
    (f : A → M B) :
  emits P must (lift None ≫= f).
Proof.
  intros w. exists []. unfold mbind, M_bind, lift. simpl. rewrite app_nil_r.
  split; [done|]. split; [constructor|]. by intros [? ?].
Qed.

(** ** The fetcher *)

(** The address of the archive of a year. *)
Definition scf_url (year : Z) (filetype : string) : string :=
  "https://www.federalreserve.gov/econres/files/scf"
  ++ (if String.eqb filetype "summary" then "p" else "")
  ++ str_Z year
  ++ (if (year mod 3 =? 0)%Z then "" else "p")
  ++ "s.zip".

(** The directory of a year and the place of its archive. *)
Definition scf_dir (datadir : string) (year : Z) : string :=
  datadir ++ sep_after datadir ++ str_Z year.

Definition scf_zip (datadir : string) (year : Z) (filetype : string) : string :=
  datadir ++ sep_after datadir ++ str_Z year ++ "/"
  ++ "SCF" ++ str_Z year ++ "_data_public_" ++ filetype ++ ".zip".

(** The calls that [SCF_load_data] may make. *)
Definition scf_call (datadir : string) (year : Z) (filetype : string)
    (e : event) : Prop :=
  e = EvMakedirs (scf_dir datadir year) ∨
  ((filetype = "summary" ∨ filetype = "raw") ∧
   (e = EvGet (scf_url year filetype) ∨
    e = EvWrite (scf_zip datadir year filetype) ∨
    e = EvExtract (scf_zip datadir year filetype) (scf_dir datadir year))).

Lemma emits_SCF_load_data datadir year filetype to_df :
  emits (scf_call datadir year filetype)
    [EvGet (scf_url year filetype); EvWrite (scf_zip datadir year filetype)]
    (SCF_load_data datadir year filetype to_df).
Proof.
  unfold SCF_load_data.
  rewrite os_path_join_nested.
  rewrite os_path_join_year_file by done.
  rewrite os_path_join_year.
  fold (scf_dir datadir year). fold (scf_zip datadir year filetype).
  apply (emits_bind _ [] [_; _]); [apply emits_path_exists|intros ex].
  apply (emits_bind _ [] [_; _]).
  { destruct (negb ex); [|apply emits_ret].
    eapply emits_weaken; [done| |apply emits_makedirs; by left].
    intros e He. by apply elem_of_nil in He. }
  intros _.
  assert (Hrest : ∀ file_string : string,
    (filetype = "summary" ∨ filetype = "raw") →
    file_string = (if String.eqb filetype "summary" then "p" else "") →
    emits (scf_call datadir year filetype)
      [EvGet (scf_url year filetype); EvWrite (scf_zip datadir year filetype)]
      (SCF_file_locs ← URL_DL_ZIP (scf_zip datadir year filetype)
           (scf_dir datadir year)
           ("https://www.federalreserve.gov/econres/files/scf"
            ++ (file_string ++ str_Z year
                ++ (if negb (year mod 3 =? 0)%Z then "p" else ""))
            ++ "s.zip");
       first ← lift (head SCF_file_locs);
       if to_df
       then w ← get_world;
            SCF_data ← lift (read_stata (w_files w) first);
            mret (inr SCF_data)
       else mret (inl first))).
  { intros fs Hvalid ->.
    assert (Hurl : "https://www.federalreserve.gov/econres/files/scf"
            ++ ((if String.eqb filetype "summary" then "p" else "") ++ str_Z year
                ++ (if negb (year mod 3 =? 0)%Z then "p" else ""))
            ++ "s.zip" = scf_url year filetype).
    { unfold scf_url. rewrite !string_app_assoc.
      by destruct (year mod 3 =? 0)%Z. }
    rewrite Hurl.
    apply (emits_bind _ [_; _] []).
    { eapply emits_weaken; [done| |apply emits_URL_DL_ZIP].
      - intros e He. apply elem_of_cons in He as [->|He]; [by left|].
        apply elem_of_cons in He as [->|He]; [right; by left|].
        by apply elem_of_nil in He.
      - right. split; [done|]. by left.
      - right. split; [done|]. right. by left.
      - right. split; [done|]. right. by right. }
    intros locs.
    apply (emits_bind _ [] []); [apply emits_lift|intros first].
    destruct to_df; [|apply emits_ret].
    apply (emits_bind _ [] []); [apply emits_get_world|intros w].
    apply (emits_bind _ [] []); [apply emits_lift|intros d].
    apply emits_ret. }
  destruct (String.eqb filetype "summary") eqn:E1.
  { apply emits_lift_Some. apply String.eqb_eq in E1 as ->.
    apply (Hrest "p"); [by left|done]. }
  destruct (String.eqb filetype "raw") eqn:E2.
  { apply emits_lift_Some. apply String.eqb_eq in E2 as ->.
    apply (Hrest ""); [by right|done]. }
  apply emits_lift_None.
Qed.

(** The calls of [SCF_load_data]: every request goes to
    [.../scf{file_flag}{year}{panel_flag}s.zip] with the flag p for
    summary, none for raw, and the panel flag p when the year is not a
    multiple of 3; the archive is written to
    [SCF{year}_data_public_{filetype}.zip] in the directory of the year
    under the base directory; no other directory is made; a request is
    made for the two file types only; and a run that returns has made
    the request and written the archive. *)
Theorem SCF_load_data_calls datadir year filetype to_df (w : world) :
  ∃ evs : list event,
    w_log (SCF_load_data datadir year filetype to_df w).2 = (w_log w ++ evs)%list ∧
    (∀ u, EvGet u ∈ evs →
       (filetype = "summary" ∨ filetype = "raw") ∧
       u = "https://www.federalreserve.gov/econres/files/scf"
           ++ (if String.eqb filetype "summary" then "p" else "")
           ++ str_Z year ++ (if (year mod 3 =? 0)%Z then "" else "p")
           ++ "s.zip") ∧
    (∀ p, EvWrite p ∈ evs →
       p = datadir ++ sep_after datadir ++ str_Z year ++ "/"
           ++ "SCF" ++ str_Z year ++ "_data_public_" ++ filetype ++ ".zip") ∧
    (∀ p, EvMakedirs p ∈ evs → p = datadir ++ sep_after datadir ++ str_Z year) ∧
    (is_Some (SCF_load_data datadir year filetype to_df w).1 →
       EvGet (scf_url year filetype) ∈ evs ∧
       EvWrite (scf_zip datadir year filetype) ∈ evs).
Proof.
  destruct (emits_SCF_load_data datadir year filetype to_df w)
    as (evs & Hlog & HP & Hmust).
  exists evs. split; [done|].
  rewrite Forall_forall in HP.
  split; [|split; [|split]].
  - intros u Hu. destruct (HP _ Hu) as [?|[Hv [[= ->]|[?|?]]]]; done.
  - intros p Hp. destruct (HP _ Hp) as [?|[Hv [?|[[= ->]|?]]]]; done.
  - intros p Hp. destruct (HP _ Hp) as [[= ->]|[Hv [?|[?|?]]]]; done.
  - intros Hs. split; apply (Hmust Hs).
    + by left.
    + right. by left.
Qed.

Lemma SCF_load_data_calls_witness :
  EvGet "https://www.federalreserve.gov/econres/files/scfp1992s.zip"
    ∈ w_log (SCF_load_data "data" 1992 "summary" false
               (World ∅ ∅ {[ scf_url 1992 "summary" :=
                              ZipArchive [("rscfp1992.dta", sample_raw)] ]} [])).2.
Proof.
  destruct (SCF_load_data_calls "data" 1992 "summary" false
              (World ∅ ∅ {[ scf_url 1992 "summary" :=
                             ZipArchive [("rscfp1992.dta", sample_raw)] ]} []))
    as (evs & Hlog & _ & _ & _ & Hmust).
  rewrite Hlog. apply elem_of_app. right.
  apply Hmust. vm_compute. by eexists.
Defined.

(** ** The range of years *)

Lemma elem_of_py_range (start stop step y : Z) :
  (0 < step)%Z →
  y ∈ py_range start stop step ↔
  (start ≤ y < stop)%Z ∧ ((y - start) mod step = 0)%Z.
Proof.
  intros Hstep. unfold py_range. rewrite list_elem_of_fmap. split.
  - intros (i & -> & Hi). apply elem_of_seq in Hi as [_ Hi]. simpl in Hi.
    assert (Hn : (Z.of_nat i < (stop - start + step - 1) / step)%Z) by lia.
    assert (Hlt : (step * (Z.of_nat i + 1) ≤ stop - start + step - 1)%Z).
    { transitivity (step * ((stop - start + step - 1) / step))%Z.
      - apply Z.mul_le_mono_nonneg_l; lia.
      - apply Z.mul_div_le. lia. }
    split; [nia|].
    replace (start + step * Z.of_nat i - start)%Z with (Z.of_nat i * step)%Z by lia.
    apply Z.mod_mul. lia.
  - intros [[Hlo Hhi] Hmod].
    apply Z.mod_divide in Hmod as [k Hk]; [|lia].
    assert (0 ≤ k)%Z by nia.
    exists (Z.to_nat k). split; [lia|].
    apply elem_of_seq. split; [lia|]. simpl.
    assert (k + 1 ≤ (stop - start + step - 1) / step)%Z; [|lia].
    apply Z.div_le_lower_bound; nia.
Qed.

(** ** [scrape_SCF] *)

Lemma emits_scrape_SCF datadir start until filetypes :
  emits (λ e, ∃ year filetype,
           year ∈ py_range start (until + 3) 3 ∧ filetype ∈ filetypes ∧
           scf_call datadir year filetype e) []
    (scrape_SCF datadir start until filetypes).
Proof.
  unfold scrape_SCF, os_path_exists_object. simpl negb. cbv iota.
  apply (emits_bind _ [] []); [apply emits_ret|intros _].
  apply emits_for_each. intros year paths Hyear.
  apply emits_for_each. intros filetype paths' Hft.
  apply (emits_bind _ [] []).
  - eapply emits_weaken; [| |apply emits_SCF_load_data].
    + intros e He. by exists year, filetype.
    + intros e He. by apply elem_of_nil in He.
  - intros [path|df]; [apply emits_ret|apply emits_lift].
Qed.

(** [scrape_SCF] never makes the base directory by a call of its own:
    its guard tests the function [os.path.exists] itself, which is true,
    so the directories that are made are those of the years of the
    range, made by [SCF_load_data]; every request and every archive is
    that of a year of the range and of a file type of the list. *)
Theorem scrape_SCF_calls datadir start until filetypes (w : world) :
  ∃ evs : list event,
    w_log (scrape_SCF datadir start until filetypes w).2 = (w_log w ++ evs)%list ∧
    (∀ p, EvMakedirs p ∈ evs →
       p ≠ datadir ∧
       ∃ year, (start ≤ year < until + 3)%Z ∧ ((year - start) mod 3 = 0)%Z ∧
               p = os_path_join datadir [str_Z year]) ∧
    (∀ u, EvGet u ∈ evs →
       ∃ year filetype, (start ≤ year < until + 3)%Z ∧ ((year - start) mod 3 = 0)%Z ∧
               filetype ∈ filetypes ∧ u = scf_url year filetype).
Proof.
  destruct (emits_scrape_SCF datadir start until filetypes w)
    as (evs & Hlog & HP & _).
  exists evs. split; [done|]. rewrite Forall_forall in HP.
  split.
  - intros p Hp. destruct (HP _ Hp) as (year & ft & Hy & _ & Hcall).
    apply elem_of_py_range in Hy as [Hr Hm]; [|lia].
    destruct Hcall as [[= ->]|[_ [?|[?|?]]]]; try done.
    unfold scf_dir. rewrite <- os_path_join_year.
    split; [apply year_dir_not_base|]. exists year. done.
  - intros u Hu. destruct (HP _ Hu) as (year & ft & Hy & Hft & Hcall).
    apply elem_of_py_range in Hy as [Hr Hm]; [|lia].
    destruct Hcall as [?|[_ [[= ->]|[?|?]]]]; try done.
    by exists year, ft.
Qed.

Lemma scrape_SCF_calls_witness :
  ∃ evs : list event,
    w_log (scrape_SCF "data" 1992 1992 ["summary"]
             (World ∅ ∅ {[ scf_url 1992 "summary" :=
                            ZipArchive [("rscfp1992.dta", sample_raw)] ]} [])).2 = evs ∧
    EvMakedirs "data/1992" ∈ evs ∧ EvMakedirs "data" ∉ evs.
Proof.
  destruct (scrape_SCF_calls "data" 1992 1992 ["summary"]
             (World ∅ ∅ {[ scf_url 1992 "summary" :=
                            ZipArchive [("rscfp1992.dta", sample_raw)] ]} []))
    as (evs & Hlog & Hmk & _).
  simpl in Hlog. exists evs. split; [done|]. split.
  - rewrite <- Hlog. vm_compute. by left.
  - intros Hin. by destruct (Hmk "data" Hin) as [Hne _].
Defined.
